(** * Point-by-point match scoring: tennis and pickleball engines

    A shallow embedding of the scoring engines of the repository
    (the tennis engine, [features/scoring/engine/pickleball.ts], the
    shared types of [types/scoring.types] and the undo path of
    [features/scoring/hooks/useScoring.ts]) together with the properties
    the specification states about them.

    Conventions of the embedding.
    - A JavaScript [number] that holds a counter or a configured threshold
      is a [Z]; an array index is a [nat]; [%] is [Z.rem].
    - [T | null] and an optional field [f?: T] are [option T].
    - The union [GameState = TennisGameState | PickleballGameState] is
      resolved by each engine with a cast ([state.currentGame as ...]); the
      match state is therefore parametrised by the game type of its engine.
    - A [throw], and a property read on [undefined], end the call with
      [Throw]; every other call returns [Ok]. *)

From Stdlib Require Import ZArith String DecimalString Lia.
From stdpp Require Import base option list.

Open Scope Z_scope.

(** ** Shared types ([types/scoring.types]) *)

Inductive Team : Set := Team1 | Team2.

#[global] Instance Team_eq_dec : EqDecision Team.
Proof. solve_decision. Defined.

Inductive SportType : Set := tennis | pickleball | badminton | padel.

Record ScoringConfig : Set := {
  sport : SportType;
  setsToWin : Z;
  gamesPerSet : Z;
  tiebreakAt : Z;
  finalSetTiebreak : bool;
  finalSetTiebreakPoints : Z;
  advantageScoring : bool;
  pointsPerGame : option Z;
  winByTwo : bool;
  rallyScoring : bool
}.

Definition TENNIS_STANDARD : ScoringConfig :=
  {| sport := tennis; setsToWin := 2; gamesPerSet := 6; tiebreakAt := 6;
     finalSetTiebreak := true; finalSetTiebreakPoints := 10;
     advantageScoring := true; pointsPerGame := None;
     winByTwo := true; rallyScoring := false |}.

Definition TENNIS_FAST4 : ScoringConfig :=
  {| sport := tennis; setsToWin := 2; gamesPerSet := 4; tiebreakAt := 3;
     finalSetTiebreak := true; finalSetTiebreakPoints := 7;
     advantageScoring := false; pointsPerGame := None;
     winByTwo := false; rallyScoring := false |}.

Definition PICKLEBALL_STANDARD : ScoringConfig :=
  {| sport := pickleball; setsToWin := 2; gamesPerSet := 1; tiebreakAt := 0;
     finalSetTiebreak := false; finalSetTiebreakPoints := 0;
     advantageScoring := false; pointsPerGame := Some 11;
     winByTwo := true; rallyScoring := true |}.

Definition PICKLEBALL_SIDEOUT : ScoringConfig :=
  {| sport := pickleball; setsToWin := 2; gamesPerSet := 1; tiebreakAt := 0;
     finalSetTiebreak := false; finalSetTiebreakPoints := 0;
     advantageScoring := false; pointsPerGame := Some 11;
     winByTwo := true; rallyScoring := false |}.

(** [TennisPoint]: the labels ['0'], ['15'], ['30'], ['40'] and ['AD']. *)
Inductive TennisPoint : Set := P0 | P15 | P30 | P40 | AD.

#[global] Instance TennisPoint_eq_dec : EqDecision TennisPoint.
Proof. solve_decision. Defined.

Definition TENNIS_POINTS : list TennisPoint := [P0; P15; P30; P40].

Record TennisGameState : Set := {
  team1Points : TennisPoint;
  team2Points : TennisPoint
}.

(** [serverNumber: 1 | 2]. *)
Inductive ServerNumber : Set := Server1 | Server2.

(** The pickleball game state; its tallies are numbers, and the field names
    carry a prefix only because the tennis record owns the plain ones. *)
Record PickleballGameState : Set := {
  pbTeam1Points : Z;
  pbTeam2Points : Z;
  serverNumber : ServerNumber
}.

Record TiebreakScore : Set := {
  team1 : Z;
  team2 : Z
}.

Record SetState : Set := {
  setNumber : Z;
  team1Games : Z;
  team2Games : Z;
  isTiebreak : bool;
  tiebreakScore : option TiebreakScore;
  winner : option Team
}.

Record MatchState (G : Type) : Type := {
  fixtureId : string;
  config : ScoringConfig;
  sets : list SetState;
  currentSetIndex : nat;
  currentGame : G;
  servingTeam : Team;
  matchWinner : option Team;
  isComplete : bool
}.

Arguments fixtureId {G} _.
Arguments config {G} _.
Arguments sets {G} _.
Arguments currentSetIndex {G} _.
Arguments currentGame {G} _.
Arguments servingTeam {G} _.
Arguments matchWinner {G} _.
Arguments isComplete {G} _.

Inductive ScoreEventType : Set :=
  | point_scored | game_won | set_won | match_won
  | undo | correction | match_started.

(** The event's [id] field is [eventId] here and its [fixtureId] field is
    [eventFixtureId]: the plain names are taken. *)
Record ScoreEvent (G : Type) : Type := {
  eventId : string;
  eventFixtureId : string;
  eventType : ScoreEventType;
  scoringTeam : Team;
  scoreSnapshot : MatchState G;
  recordedBy : option string;
  recordedAt : Z;
  notes : option string
}.

Arguments eventId {G} _.
Arguments eventFixtureId {G} _.
Arguments eventType {G} _.
Arguments scoringTeam {G} _.
Arguments scoreSnapshot {G} _.
Arguments recordedBy {G} _.
Arguments recordedAt {G} _.
Arguments notes {G} _.

(** ** Calls that can fail *)

Inductive Failure : Set :=
  | TiebreakScoreNotInitialized   (* [throw new Error('Tiebreak score not initialized')] *)
  | CurrentSetUndefined           (* a field read on [state.sets[i]] when it is [undefined] *)
  | NoEventsToUndo.               (* [throw new Error('No events to undo')] *)

Inductive result (A : Type) : Type :=
  | Ok (a : A)
  | Throw (e : Failure).

Arguments Ok {A} _.
Arguments Throw {A} _.

#[global] Instance result_ret : MRet result := fun A a => Ok a.
#[global] Instance result_bind : MBind result := fun A B f r =>
  match r with
  | Ok a => f a
  | Throw e => Throw e
  end.
#[global] Instance result_fmap : FMap result := fun A B f r =>
  match r with
  | Ok a => Ok (f a)
  | Throw e => Throw e
  end.

(** The engine interface [ScoringEngine] of [types/scoring.types], without
    its two formatting functions. *)
Record ScoringEngine (G : Type) : Type := {
  scorePoint : MatchState G -> Team -> result (MatchState G);
  undoLastPoint : MatchState G -> list (ScoreEvent G) -> MatchState G;
  isMatchComplete : MatchState G -> bool;
  createInitialState : string -> ScoringConfig -> Team -> MatchState G
}.

Arguments scorePoint {G} _ _ _.
Arguments undoLastPoint {G} _ _ _.
Arguments isMatchComplete {G} _ _.
Arguments createInitialState {G} _ _ _ _.

(** ** Helpers shared by both engines *)

(** [currentServer === 1 ? 2 : 1]. *)
Definition otherTeam (t : Team) : Team :=
  match t with Team1 => Team2 | Team2 => Team1 end.

(** [cond ? 1 : 0]. *)
Definition oneIf (b : bool) : Z := if b then 1 else 0.

(** [state.sets.filter(s => s.winner === t).length]. *)
Definition setsWonBy (t : Team) (l : list SetState) : Z :=
  Z.of_nat (length (List.filter (fun s => bool_decide (winner s = Some t)) l)).

(** [sets.map((s, i) => (i === idx ? newSet : s))]: an index out of range
    leaves the array as it is, which is what the list insertion does. *)
Definition replaceSet (idx : nat) (newSet : SetState) (l : list SetState)
  : list SetState := <[idx := newSet]> l.

(** [events[events.length - 1]] of a non-empty array; the array is never
    empty where the engines read it, so the default is never returned. *)
Definition lastEvent {G : Type} (events : list (ScoreEvent G))
    (dflt : MatchState G) : MatchState G :=
  match events !! (length events - 1)%nat with
  | Some previousEvent => scoreSnapshot previousEvent
  | None => dflt
  end.

(** ** The tennis engine *)

Module Tennis.

Definition createInitialSet (n : Z) : SetState :=
  {| setNumber := n; team1Games := 0; team2Games := 0;
     isTiebreak := false; tiebreakScore := None; winner := None |}.

Definition createInitialGame : TennisGameState :=
  {| team1Points := P0; team2Points := P0 |}.

(** [Array.prototype.indexOf]: the position of the first occurrence, or -1. *)
Fixpoint indexOf (l : list TennisPoint) (x : TennisPoint) : Z :=
  match l with
  | [] => -1
  | y :: l' =>
      if bool_decide (y = x) then 0
      else let r := indexOf l' x in if r =? -1 then -1 else r + 1
  end.

Definition getNextPoint (current : TennisPoint) : TennisPoint :=
  let index := indexOf TENNIS_POINTS current in
  if (index =? -1) || (index >=? Z.of_nat (length TENNIS_POINTS) - 1)
  then current
  else default current (TENNIS_POINTS !! Z.to_nat (index + 1)).

(** [game[scoringKey]] and [{ ...game, [scoringKey]: p }], with
    [scoringKey] the field of the given team. *)
Definition pointsOf (t : Team) (game : TennisGameState) : TennisPoint :=
  match t with Team1 => team1Points game | Team2 => team2Points game end.

Definition withPoints (t : Team) (p : TennisPoint) (game : TennisGameState)
  : TennisGameState :=
  match t with
  | Team1 => {| team1Points := p; team2Points := team2Points game |}
  | Team2 => {| team1Points := team1Points game; team2Points := p |}
  end.

Definition scoreRegularPoint (game : TennisGameState) (scoringTeam : Team)
    (advantageScoring : bool) : TennisGameState * option Team :=
  let scoringPoints := pointsOf scoringTeam game in
  let otherPoints := pointsOf (otherTeam scoringTeam) game in
  if bool_decide (scoringPoints = P40) && bool_decide (otherPoints = P40) then
    if advantageScoring
    then (withPoints scoringTeam AD game, None)
    else (createInitialGame, Some scoringTeam)
  else if bool_decide (scoringPoints = AD) then
    (createInitialGame, Some scoringTeam)
  else if bool_decide (otherPoints = AD) then
    ({| team1Points := P40; team2Points := P40 |}, None)
  else if bool_decide (scoringPoints = P40) then
    (createInitialGame, Some scoringTeam)
  else
    (withPoints scoringTeam (getNextPoint scoringPoints) game, None).

(** [score[scoringKey]] and [{ ...score, [scoringKey]: n }] on a tiebreak
    tally. *)
Definition tallyOf (t : Team) (sc : TiebreakScore) : Z :=
  match t with Team1 => team1 sc | Team2 => team2 sc end.

Definition withTally (t : Team) (n : Z) (sc : TiebreakScore) : TiebreakScore :=
  match t with
  | Team1 => {| team1 := n; team2 := team2 sc |}
  | Team2 => {| team1 := team1 sc; team2 := n |}
  end.

(** The tiebreak target computed inside [scoreTiebreakPoint]. *)
Definition tiebreakTarget (set : SetState) (config : ScoringConfig) : Z :=
  let isFinalSet := setNumber set =? setsToWin config * 2 - 1 in
  if isFinalSet && finalSetTiebreak config
  then finalSetTiebreakPoints config
  else 7.

Definition scoreTiebreakPoint (set : SetState) (scoringTeam : Team)
    (config : ScoringConfig) : result (SetState * option Team) :=
  match tiebreakScore set with
  | None => Throw TiebreakScoreNotInitialized
  | Some score =>
      let newScore := withTally scoringTeam (tallyOf scoringTeam score + 1) score in
      let scoringPoints := tallyOf scoringTeam newScore in
      let otherPoints := tallyOf (otherTeam scoringTeam) newScore in
      let tiebreakTarget := tiebreakTarget set config in
      if (scoringPoints >=? tiebreakTarget) && (scoringPoints - otherPoints >=? 2)
      then
        Ok ({| setNumber := setNumber set;
               team1Games := team1Games set + oneIf (bool_decide (scoringTeam = Team1));
               team2Games := team2Games set + oneIf (bool_decide (scoringTeam = Team2));
               isTiebreak := isTiebreak set;
               tiebreakScore := Some newScore;
               winner := Some scoringTeam |},
            Some scoringTeam)
      else
        Ok ({| setNumber := setNumber set;
               team1Games := team1Games set;
               team2Games := team2Games set;
               isTiebreak := isTiebreak set;
               tiebreakScore := Some newScore;
               winner := winner set |},
            None)
  end.

Definition checkSetWon (set : SetState) (config : ScoringConfig) : option Team :=
  let team1Games := team1Games set in
  let team2Games := team2Games set in
  let gamesPerSet := gamesPerSet config in
  if isTiebreak set then None
  else if (team1Games >=? gamesPerSet) && (team1Games - team2Games >=? 2) then Some Team1
  else if (team2Games >=? gamesPerSet) && (team2Games - team1Games >=? 2) then Some Team2
  else if (team1Games =? gamesPerSet + 1) && (team2Games =? gamesPerSet - 1) then Some Team1
  else if (team2Games =? gamesPerSet + 1) && (team1Games =? gamesPerSet - 1) then Some Team2
  else None.

Definition shouldStartTiebreak (set : SetState) (config : ScoringConfig) : bool :=
  (team1Games set =? tiebreakAt config)
  && (team2Games set =? tiebreakAt config)
  && negb (isTiebreak set).

Definition updateServerAfterGame (currentServer : Team) : Team :=
  otherTeam currentServer.

Definition updateServerInTiebreak (currentServer : Team) (totalPoints : Z) : Team :=
  if totalPoints =? 0 then currentServer
  else if totalPoints =? 1 then otherTeam currentServer
  else if Z.rem (totalPoints - 1) 2 =? 0 then otherTeam currentServer
  else currentServer.

(** [{ ...set, team1Games: ..., team2Games: ... }] after the game went to
    [gameWon]. *)
Definition addGame (gameWon : Team) (set : SetState) : SetState :=
  {| setNumber := setNumber set;
     team1Games := team1Games set + oneIf (bool_decide (gameWon = Team1));
     team2Games := team2Games set + oneIf (bool_decide (gameWon = Team2));
     isTiebreak := isTiebreak set;
     tiebreakScore := tiebreakScore set;
     winner := winner set |}.

Definition scorePoint (state : MatchState TennisGameState) (scoringTeam : Team)
  : result (MatchState TennisGameState) :=
  if isComplete state then Ok state
  else
    match sets state !! currentSetIndex state with
    | None => Throw CurrentSetUndefined
    | Some currentSet =>
      let game := currentGame state in
      if isTiebreak currentSet then
        '(newSet, setWon) ← scoreTiebreakPoint currentSet scoringTeam (config state);
        let totalTiebreakPoints :=
          match tiebreakScore newSet with
          | Some sc => team1 sc + team2 sc
          | None => 0
          end in
        match setWon with
        | Some setWon =>
          let team1Sets := setsWonBy Team1 (sets state) + oneIf (bool_decide (setWon = Team1)) in
          let team2Sets := setsWonBy Team2 (sets state) + oneIf (bool_decide (setWon = Team2)) in
          if (team1Sets =? setsToWin (config state)) || (team2Sets =? setsToWin (config state))
          then
            Ok {| fixtureId := fixtureId state;
                  config := config state;
                  sets := replaceSet (currentSetIndex state) newSet (sets state);
                  currentSetIndex := currentSetIndex state;
                  currentGame := currentGame state;
                  servingTeam := servingTeam state;
                  matchWinner := Some setWon;
                  isComplete := true |}
          else
            Ok {| fixtureId := fixtureId state;
                  config := config state;
                  sets := replaceSet (currentSetIndex state) newSet (sets state)
                          ++ [createInitialSet (Z.of_nat (currentSetIndex state) + 2)];
                  currentSetIndex := (currentSetIndex state + 1)%nat;
                  currentGame := createInitialGame;
                  servingTeam := updateServerAfterGame (servingTeam state);
                  matchWinner := matchWinner state;
                  isComplete := isComplete state |}
        | None =>
            Ok {| fixtureId := fixtureId state;
                  config := config state;
                  sets := replaceSet (currentSetIndex state) newSet (sets state);
                  currentSetIndex := currentSetIndex state;
                  currentGame := currentGame state;
                  servingTeam := updateServerInTiebreak (servingTeam state) totalTiebreakPoints;
                  matchWinner := matchWinner state;
                  isComplete := isComplete state |}
        end
      else
        let '(newGame, gameWon) :=
          scoreRegularPoint game scoringTeam (advantageScoring (config state)) in
        match gameWon with
        | None =>
            Ok {| fixtureId := fixtureId state;
                  config := config state;
                  sets := sets state;
                  currentSetIndex := currentSetIndex state;
                  currentGame := newGame;
                  servingTeam := servingTeam state;
                  matchWinner := matchWinner state;
                  isComplete := isComplete state |}
        | Some gameWon =>
          let updatedSet := addGame gameWon currentSet in
          if shouldStartTiebreak updatedSet (config state) then
            Ok {| fixtureId := fixtureId state;
                  config := config state;
                  sets := replaceSet (currentSetIndex state)
                            {| setNumber := setNumber updatedSet;
                               team1Games := team1Games updatedSet;
                               team2Games := team2Games updatedSet;
                               isTiebreak := true;
                               tiebreakScore := Some {| team1 := 0; team2 := 0 |};
                               winner := winner updatedSet |}
                            (sets state);
                  currentSetIndex := currentSetIndex state;
                  currentGame := createInitialGame;
                  servingTeam := updateServerAfterGame (servingTeam state);
                  matchWinner := matchWinner state;
                  isComplete := isComplete state |}
          else
            match checkSetWon updatedSet (config state) with
            | Some setWinner =>
              let finalSet :=
                {| setNumber := setNumber updatedSet;
                   team1Games := team1Games updatedSet;
                   team2Games := team2Games updatedSet;
                   isTiebreak := isTiebreak updatedSet;
                   tiebreakScore := tiebreakScore updatedSet;
                   winner := Some setWinner |} in
              let team1Sets := setsWonBy Team1 (sets state) + oneIf (bool_decide (setWinner = Team1)) in
              let team2Sets := setsWonBy Team2 (sets state) + oneIf (bool_decide (setWinner = Team2)) in
              if (team1Sets =? setsToWin (config state)) || (team2Sets =? setsToWin (config state))
              then
                Ok {| fixtureId := fixtureId state;
                      config := config state;
                      sets := replaceSet (currentSetIndex state) finalSet (sets state);
                      currentSetIndex := currentSetIndex state;
                      currentGame := newGame;
                      servingTeam := servingTeam state;
                      matchWinner := Some setWinner;
                      isComplete := true |}
              else
                Ok {| fixtureId := fixtureId state;
                      config := config state;
                      sets := replaceSet (currentSetIndex state) finalSet (sets state)
                              ++ [createInitialSet (Z.of_nat (currentSetIndex state) + 2)];
                      currentSetIndex := (currentSetIndex state + 1)%nat;
                      currentGame := createInitialGame;
                      servingTeam := updateServerAfterGame (servingTeam state);
                      matchWinner := matchWinner state;
                      isComplete := isComplete state |}
            | None =>
                Ok {| fixtureId := fixtureId state;
                      config := config state;
                      sets := replaceSet (currentSetIndex state) updatedSet (sets state);
                      currentSetIndex := currentSetIndex state;
                      currentGame := newGame;
                      servingTeam := updateServerAfterGame (servingTeam state);
                      matchWinner := matchWinner state;
                      isComplete := isComplete state |}
            end
        end
    end.

Definition createInitialState (fixtureId : string) (config : ScoringConfig)
    (servingTeam : Team) : MatchState TennisGameState :=
  {| fixtureId := fixtureId;
     config := config;
     sets := [createInitialSet 1];
     currentSetIndex := 0%nat;
     currentGame := createInitialGame;
     servingTeam := servingTeam;
     matchWinner := None;
     isComplete := false |}.

Definition undoLastPoint (state : MatchState TennisGameState)
    (events : list (ScoreEvent TennisGameState)) : MatchState TennisGameState :=
  if Z.of_nat (length events) =? 0 then state
  else lastEvent events state.

Definition isMatchComplete (state : MatchState TennisGameState) : bool :=
  isComplete state.

End Tennis.

Definition tennisScorer : ScoringEngine TennisGameState :=
  {| scorePoint := Tennis.scorePoint;
     undoLastPoint := Tennis.undoLastPoint;
     isMatchComplete := Tennis.isMatchComplete;
     createInitialState := Tennis.createInitialState |}.

(** ** The pickleball engine ([features/scoring/engine/pickleball.ts]) *)

Module Pickleball.

Definition createInitialSet (n : Z) : SetState :=
  {| setNumber := n; team1Games := 0; team2Games := 0;
     isTiebreak := false; tiebreakScore := None; winner := None |}.

Definition createInitialGame : PickleballGameState :=
  {| pbTeam1Points := 0; pbTeam2Points := 0; serverNumber := Server1 |}.

(** [config.pointsPerGame || 11]: the right operand is taken when the field
    is absent and also when it is the number 0. *)
Definition pointsToWin (config : ScoringConfig) : Z :=
  match pointsPerGame config with
  | Some n => if n =? 0 then 11 else n
  | None => 11
  end.

(** [game[scoringKey]] and [{ ...game, [scoringKey]: n }]. *)
Definition pointsOf (t : Team) (game : PickleballGameState) : Z :=
  match t with Team1 => pbTeam1Points game | Team2 => pbTeam2Points game end.

Definition withPoints (t : Team) (n : Z) (game : PickleballGameState)
  : PickleballGameState :=
  match t with
  | Team1 => {| pbTeam1Points := n; pbTeam2Points := pbTeam2Points game;
                serverNumber := serverNumber game |}
  | Team2 => {| pbTeam1Points := pbTeam1Points game; pbTeam2Points := n;
                serverNumber := serverNumber game |}
  end.

Definition scorePoint (state : MatchState PickleballGameState) (scoringTeam : Team)
  : result (MatchState PickleballGameState) :=
  if isComplete state then Ok state
  else
    let game := currentGame state in
    let config := config state in
    let pointsToWin := pointsToWin config in
    if negb (rallyScoring config) && negb (bool_decide (scoringTeam = servingTeam state))
    then
      let '(newServerNumber, newServingTeam) :=
        match serverNumber game with
        | Server1 => (Server2, servingTeam state)
        | Server2 => (Server1, otherTeam (servingTeam state))
        end in
      Ok {| fixtureId := fixtureId state;
            config := config;
            sets := sets state;
            currentSetIndex := currentSetIndex state;
            currentGame := {| pbTeam1Points := pbTeam1Points game;
                              pbTeam2Points := pbTeam2Points game;
                              serverNumber := newServerNumber |};
            servingTeam := newServingTeam;
            matchWinner := matchWinner state;
            isComplete := isComplete state |}
    else
      let newPoints := pointsOf scoringTeam game + 1 in
      let otherPoints := pointsOf (otherTeam scoringTeam) game in
      let hasEnoughPoints := newPoints >=? pointsToWin in
      let hasRequiredLead :=
        if winByTwo config then newPoints - otherPoints >=? 2
        else newPoints >? otherPoints in
      if hasEnoughPoints && hasRequiredLead then
        match sets state !! currentSetIndex state with
        | None => Throw CurrentSetUndefined
        | Some currentSet =>
          let updatedSet :=
            {| setNumber := setNumber currentSet;
               team1Games := team1Games currentSet + oneIf (bool_decide (scoringTeam = Team1));
               team2Games := team2Games currentSet + oneIf (bool_decide (scoringTeam = Team2));
               isTiebreak := isTiebreak currentSet;
               tiebreakScore := tiebreakScore currentSet;
               winner := Some scoringTeam |} in
          let team1Games := setsWonBy Team1 (sets state) + oneIf (bool_decide (scoringTeam = Team1)) in
          let team2Games := setsWonBy Team2 (sets state) + oneIf (bool_decide (scoringTeam = Team2)) in
          if (team1Games =? setsToWin config) || (team2Games =? setsToWin config)
          then
            Ok {| fixtureId := fixtureId state;
                  config := config;
                  sets := replaceSet (currentSetIndex state) updatedSet (sets state);
                  currentSetIndex := currentSetIndex state;
                  currentGame := withPoints scoringTeam newPoints game;
                  servingTeam := servingTeam state;
                  matchWinner := Some scoringTeam;
                  isComplete := true |}
          else
            Ok {| fixtureId := fixtureId state;
                  config := config;
                  sets := replaceSet (currentSetIndex state) updatedSet (sets state)
                          ++ [createInitialSet (Z.of_nat (currentSetIndex state) + 2)];
                  currentSetIndex := (currentSetIndex state + 1)%nat;
                  currentGame := createInitialGame;
                  servingTeam := otherTeam scoringTeam;
                  matchWinner := matchWinner state;
                  isComplete := isComplete state |}
        end
      else
        let newGame := withPoints scoringTeam newPoints game in
        let newServingTeam :=
          if rallyScoring config then scoringTeam else servingTeam state in
        Ok {| fixtureId := fixtureId state;
              config := config;
              sets := sets state;
              currentSetIndex := currentSetIndex state;
              currentGame := newGame;
              servingTeam := newServingTeam;
              matchWinner := matchWinner state;
              isComplete := isComplete state |}.

Definition createInitialState (fixtureId : string) (config : ScoringConfig)
    (servingTeam : Team) : MatchState PickleballGameState :=
  {| fixtureId := fixtureId;
     config := config;
     sets := [createInitialSet 1];
     currentSetIndex := 0%nat;
     currentGame := createInitialGame;
     servingTeam := servingTeam;
     matchWinner := None;
     isComplete := false |}.

Definition undoLastPoint (state : MatchState PickleballGameState)
    (events : list (ScoreEvent PickleballGameState))
  : MatchState PickleballGameState :=
  if Z.of_nat (length events) =? 0 then state
  else lastEvent events state.

Definition isMatchComplete (state : MatchState PickleballGameState) : bool :=
  isComplete state.

End Pickleball.

Definition pickleballScorer : ScoringEngine PickleballGameState :=
  {| scorePoint := Pickleball.scorePoint;
     undoLastPoint := Pickleball.undoLastPoint;
     isMatchComplete := Pickleball.isMatchComplete;
     createInitialState := Pickleball.createInitialState |}.

(** ** Runs of an engine and the states it can reach *)

Section Runs.
Context {G : Type} (E : ScoringEngine G).

(** The states obtained from an initial state by [scorePoint] calls that
    return. *)
Inductive reachable : MatchState G -> Prop :=
| reachable_init fid cfg srv :
    reachable (createInitialState E fid cfg srv)
| reachable_step s t s' :
    reachable s -> scorePoint E s t = Ok s' -> reachable s'.

(** Scoring the points of a list one after the other. *)
Fixpoint scorePoints (s : MatchState G) (pts : list Team)
  : result (MatchState G) :=
  match pts with
  | [] => Ok s
  | t :: pts' => s' ← scorePoint E s t; scorePoints s' pts'
  end.
End Runs.

(** ** The event log: current state, and the undo of the scorer page
    ([features/scoring/hooks/useScoring.ts]) *)

(** The event that [useScorePoint] inserts after a point: its snapshot is the
    state after the point. The store fills in the id and the time. *)
Definition pointEvent {G : Type} (eid : string) (at_ : Z) (scoringTeam : Team)
    (newState : MatchState G) : ScoreEvent G :=
  {| eventId := eid;
     eventFixtureId := fixtureId newState;
     eventType := point_scored;
     scoringTeam := scoringTeam;
     scoreSnapshot := newState;
     recordedBy := None;
     recordedAt := at_;
     notes := None |}.

(** *** The store, as the undo of the scorer page sees it

    [useUndoPoint] makes two calls to the store: a delete on [score_events]
    and an update on [match_scores]. Each call is awaited and answers with an
    [error] field, which the code throws when it is set. The embedding takes
    the two answers as arguments and returns, with the way the call settles,
    what it has written by then: the rows of [score_events] that are left,
    and the update of [match_scores] that the store accepted, if any. A call
    that the store answers with an error has written nothing; an accepted
    delete has removed the rows with the given id. *)

(** The error object of an answer of the store, by its message. *)
Record PostgrestError : Set := { message : string }.

(** What a rejected call has thrown: an exception of the code itself, or the
    error of the store ([throw deleteError], [throw updateError]). *)
Inductive Rejection : Set :=
  | Exception (f : Failure)
  | StoreRefusal (e : PostgrestError).

(** How the promise of an [async] function settles. *)
Inductive settled (A : Type) : Type :=
  | Resolved (a : A)
  | Rejected (r : Rejection).

Arguments Resolved {A} _.
Arguments Rejected {A} _.

(** [String(n)] of a counter. *)
Definition numberString (n : Z) : string :=
  NilZero.string_of_int (Z.to_int n).

(** [String(state.currentGame.team1Points)] and its [team2Points]
    counterpart, for the game type of each engine. *)
Class GamePoints (G : Type) : Type := {
  team1PointsString : G -> string;
  team2PointsString : G -> string
}.

(** A tennis label is the string itself. *)
Definition tennisPointString (p : TennisPoint) : string :=
  match p with
  | P0 => "0"
  | P15 => "15"
  | P30 => "30"
  | P40 => "40"
  | AD => "AD"
  end%string.

#[global] Instance tennis_GamePoints : GamePoints TennisGameState :=
  {| team1PointsString := fun g => tennisPointString (team1Points g);
     team2PointsString := fun g => tennisPointString (team2Points g) |}.

#[global] Instance pickleball_GamePoints : GamePoints PickleballGameState :=
  {| team1PointsString := fun g => numberString (pbTeam1Points g);
     team2PointsString := fun g => numberString (pbTeam2Points g) |}.

(** The columns that [useUndoPoint] (and [useScorePoint]) write to the
    [match_scores] row of the fixture. The field [serving_team] of the
    object is [new_serving_team] here: the plain name is the column of the
    row that [buildMatchState] reads. *)
Record MatchScoresUpdate : Set := {
  team1_sets_won : Z;
  team2_sets_won : Z;
  current_set_number : Z;
  current_game_team1 : Z;
  current_game_team2 : Z;
  current_point_team1 : string;
  current_point_team2 : string;
  new_serving_team : Team;
  updated_at : string
}.

(** The object literal given to [.update(...)], built from [state]; [now]
    is [new Date().toISOString()]. The two reads on
    [state.sets[state.currentSetIndex]] throw a [TypeError] when the state
    has no set at that index. *)
Definition matchScoresUpdate {G : Type} `{GamePoints G} (now : string)
    (state : MatchState G) : result MatchScoresUpdate :=
  match sets state !! currentSetIndex state with
  | None => Throw CurrentSetUndefined
  | Some currentSet =>
    Ok {| team1_sets_won := setsWonBy Team1 (sets state);
          team2_sets_won := setsWonBy Team2 (sets state);
          current_set_number := Z.of_nat (currentSetIndex state) + 1;
          current_game_team1 := team1Games currentSet;
          current_game_team2 := team2Games currentSet;
          current_point_team1 := team1PointsString (currentGame state);
          current_point_team2 := team2PointsString (currentGame state);
          new_serving_team := servingTeam state;
          updated_at := now |}
  end.

(** [.from('score_events').delete().eq('id', id)], when the store accepts
    it. *)
Definition deleteScoreEvent {G : Type} (id : string)
    (score_events : list (ScoreEvent G)) : list (ScoreEvent G) :=
  List.filter (fun e => negb (String.eqb (eventId e) id)) score_events.

(** The [mutationFn] of [useUndoPoint]. [deleteError] and [updateError] are
    the [error] fields of the answers of the store to the delete and to the
    update, [now] is the time of the update, [score_events] is the table
    before the call, and [fixtureId] and [events] are the arguments of the
    mutation. The result is the table after the call, the update of
    [match_scores] that went through (with the fixture it is for), and the
    way the call settles.

    The steps are those of the source, in its order: an empty history
    throws before any call to the store; a refused delete throws with
    nothing written; past the delete, the update is made when there is a
    previous snapshot, and the call can still throw, on a snapshot without
    its current set or on a refused update, with the event already
    deleted. *)
Definition useUndoPoint {G : Type} `{GamePoints G}
    (deleteError updateError : option PostgrestError) (now : string)
    (score_events : list (ScoreEvent G))
    (fixtureId : string) (events : list (ScoreEvent G))
  : list (ScoreEvent G) * option (string * MatchScoresUpdate)
    * settled (option (MatchState G)) :=
  if Z.of_nat (length events) =? 0 then
    (score_events, None, Rejected (Exception NoEventsToUndo))
  else
    match events !! (length events - 1)%nat with
    | None =>   (* not reached: the history is not empty *)
        (score_events, None, Rejected (Exception NoEventsToUndo))
    | Some lastEvent =>
      let previousState :=
        if Z.of_nat (length events) >? 1
        then scoreSnapshot <$> events !! (length events - 2)%nat
        else None in
      match deleteError with
      | Some err => (score_events, None, Rejected (StoreRefusal err))
      | None =>
        let score_events' := deleteScoreEvent (eventId lastEvent) score_events in
        match previousState with
        | None => (score_events', None, Resolved None)
        | Some previous =>
          match matchScoresUpdate now previous with
          | Throw f => (score_events', None, Rejected (Exception f))
          | Ok columns =>
            match updateError with
            | Some err => (score_events', None, Rejected (StoreRefusal err))
            | None =>
                (score_events', Some (fixtureId, columns),
                 Resolved (Some previous))
            end
          end
        end
      end
    end.

(** ** Notions used to state the properties *)

(** A game is decided by the point that [scoringTeam] scores in [state]:
    the tests made by [Tennis.scorePoint] on its way to the branches that
    add a game to the set (a tiebreak counts as the last game of its set). *)
Definition gameCompletes (state : MatchState TennisGameState)
    (scoringTeam : Team) : bool :=
  if isComplete state then false
  else
    match sets state !! currentSetIndex state with
    | None => false
    | Some currentSet =>
      if isTiebreak currentSet then
        match Tennis.scoreTiebreakPoint currentSet scoringTeam (config state) with
        | Ok (_, Some _) => true
        | _ => false
        end
      else
        match Tennis.scoreRegularPoint (currentGame state) scoringTeam
                (advantageScoring (config state)) with
        | (_, Some _) => true
        | (_, None) => false
        end
    end.

(** The number of tiebreak points played so far in the current set, when
    that set is in a tiebreak. *)
Definition tiebreakPointsPlayed (state : MatchState TennisGameState)
  : option Z :=
  match sets state !! currentSetIndex state with
  | Some currentSet =>
      if isTiebreak currentSet
      then (fun sc => team1 sc + team2 sc) <$> tiebreakScore currentSet
      else None
  | None => None
  end.

(** The serving order of a tiebreak in words: the side serving first serves
    point 1, the other side points 2 and 3, the first side points 4 and 5,
    and so on. [m] is the number of the point, from 1. *)
Definition tiebreakServer (first : Team) (m : Z) : Team :=
  if Z.even (m / 2) then first else otherTeam first.

(** What the engines maintain on the states they reach: the current set is
    the last one, and a set in tiebreak has its tally. *)
Record wellFormed {G : Type} (s : MatchState G) : Prop := {
  wf_current : length (sets s) = S (currentSetIndex s);
  wf_tiebreak :
    Forall (fun st => isTiebreak st = true -> tiebreakScore st <> None) (sets s)
}.

(** The winner is recorded exactly when the match is complete. *)
Definition winnerIffComplete {G : Type} (s : MatchState G) : Prop :=
  matchWinner s <> None <-> isComplete s = true.

(** ** Concrete matches *)

Definition tennisStart : MatchState TennisGameState :=
  Tennis.createInitialState "m" TENNIS_STANDARD Team1.

Definition pickleballStart : MatchState PickleballGameState :=
  Pickleball.createInitialState "m" PICKLEBALL_SIDEOUT Team1.

(** Team 1 has won the first set 6-0, leads the second 5-0 and the game
    40-0: the state after 47 points for team 1 from [tennisStart]. *)
Definition tennisMatchPoint : MatchState TennisGameState :=
  {| fixtureId := "m";
     config := TENNIS_STANDARD;
     sets := [ {| setNumber := 1; team1Games := 6; team2Games := 0;
                  isTiebreak := false; tiebreakScore := None;
                  winner := Some Team1 |};
               {| setNumber := 2; team1Games := 5; team2Games := 0;
                  isTiebreak := false; tiebreakScore := None;
                  winner := None |} ];
     currentSetIndex := 1%nat;
     currentGame := {| team1Points := P40; team2Points := P0 |};
     servingTeam := Team2;
     matchWinner := None;
     isComplete := false |}.

(** The match of [tennisMatchPoint] one point later: won 6-0 6-0. *)
Definition tennisMatchWon : MatchState TennisGameState :=
  {| fixtureId := "m";
     config := TENNIS_STANDARD;
     sets := [ {| setNumber := 1; team1Games := 6; team2Games := 0;
                  isTiebreak := false; tiebreakScore := None;
                  winner := Some Team1 |};
               {| setNumber := 2; team1Games := 6; team2Games := 0;
                  isTiebreak := false; tiebreakScore := None;
                  winner := Some Team1 |} ];
     currentSetIndex := 1%nat;
     currentGame := {| team1Points := P0; team2Points := P0 |};
     servingTeam := Team2;
     matchWinner := Some Team1;
     isComplete := true |}.

(** Six games all in the first set: the tiebreak is about to start. *)
Definition tennisTiebreakStart : MatchState TennisGameState :=
  {| fixtureId := "m";
     config := TENNIS_STANDARD;
     sets := [ {| setNumber := 1; team1Games := 6; team2Games := 6;
                  isTiebreak := true;
                  tiebreakScore := Some {| team1 := 0; team2 := 0 |};
                  winner := None |} ];
     currentSetIndex := 0%nat;
     currentGame := {| team1Points := P0; team2Points := P0 |};
     servingTeam := Team1;
     matchWinner := None;
     isComplete := false |}.

(** The points of the games that lead from [tennisStart] to
    [tennisTiebreakStart]: each side wins its games to love, in turn. *)
Definition sixGamesAll : list Team :=
  concat (replicate 6 (replicate 4 Team1 ++ replicate 4 Team2)).

(** A side-out pickleball match that team 1 has won 11-0, 11-0; team 1
    served last, from the first server slot. *)
Definition pickleballMatchWon : MatchState PickleballGameState :=
  {| fixtureId := "m";
     config := PICKLEBALL_SIDEOUT;
     sets := [ {| setNumber := 1; team1Games := 1; team2Games := 0;
                  isTiebreak := false; tiebreakScore := None;
                  winner := Some Team1 |};
               {| setNumber := 2; team1Games := 1; team2Games := 0;
                  isTiebreak := false; tiebreakScore := None;
                  winner := Some Team1 |} ];
     currentSetIndex := 1%nat;
     currentGame := {| pbTeam1Points := 11; pbTeam2Points := 0;
                       serverNumber := Server1 |};
     servingTeam := Team1;
     matchWinner := Some Team1;
     isComplete := true |}.

(** A side-out game in which team 1 serves at 3-2 from the second slot. *)
Definition pickleballMidGame : MatchState PickleballGameState :=
  {| fixtureId := "m";
     config := PICKLEBALL_SIDEOUT;
     sets := [ Pickleball.createInitialSet 1 ];
     currentSetIndex := 0%nat;
     currentGame := {| pbTeam1Points := 3; pbTeam2Points := 2;
                       serverNumber := Server2 |};
     servingTeam := Team1;
     matchWinner := None;
     isComplete := false |}.

(** [PICKLEBALL_STANDARD] without its [pointsPerGame] field. *)
Definition PICKLEBALL_NO_TARGET : ScoringConfig :=
  {| sport := pickleball; setsToWin := 2; gamesPerSet := 1; tiebreakAt := 0;
     finalSetTiebreak := false; finalSetTiebreakPoints := 0;
     advantageScoring := false; pointsPerGame := None;
     winByTwo := true; rallyScoring := true |}.

(** Game point at 10-4 under [PICKLEBALL_NO_TARGET]. *)
Definition pickleballGamePoint : MatchState PickleballGameState :=
  {| fixtureId := "m";
     config := PICKLEBALL_NO_TARGET;
     sets := [ Pickleball.createInitialSet 1 ];
     currentSetIndex := 0%nat;
     currentGame := {| pbTeam1Points := 10; pbTeam2Points := 4;
                       serverNumber := Server1 |};
     servingTeam := Team1;
     matchWinner := None;
     isComplete := false |}.

(** Set point for team 1 at 5-0, 40-0 in the first set, and the state one
    point later: the set is won and the second set begins. *)
Definition tennisSetPoint : MatchState TennisGameState :=
  {| fixtureId := "m";
     config := TENNIS_STANDARD;
     sets := [ {| setNumber := 1; team1Games := 5; team2Games := 0;
                  isTiebreak := false; tiebreakScore := None;
                  winner := None |} ];
     currentSetIndex := 0%nat;
     currentGame := {| team1Points := P40; team2Points := P0 |};
     servingTeam := Team2;
     matchWinner := None;
     isComplete := false |}.

Definition tennisSecondSet : MatchState TennisGameState :=
  {| fixtureId := "m";
     config := TENNIS_STANDARD;
     sets := [ {| setNumber := 1; team1Games := 6; team2Games := 0;
                  isTiebreak := false; tiebreakScore := None;
                  winner := Some Team1 |};
               Tennis.createInitialSet 2 ];
     currentSetIndex := 1%nat;
     currentGame := {| team1Points := P0; team2Points := P0 |};
     servingTeam := Team1;
     matchWinner := None;
     isComplete := false |}.

(** [tennisTiebreakStart] five tiebreak points later, at 3-2. *)
Definition tennisTiebreakFive : MatchState TennisGameState :=
  {| fixtureId := "m";
     config := TENNIS_STANDARD;
     sets := [ {| setNumber := 1; team1Games := 6; team2Games := 6;
                  isTiebreak := true;
                  tiebreakScore := Some {| team1 := 3; team2 := 2 |};
                  winner := None |} ];
     currentSetIndex := 0%nat;
     currentGame := {| team1Points := P0; team2Points := P0 |};
     servingTeam := Team2;
     matchWinner := None;
     isComplete := false |}.

(** [tennisStart] after one point for team 1, and after two. *)
Definition tennisAfterOne : MatchState TennisGameState :=
  {| fixtureId := "m";
     config := TENNIS_STANDARD;
     sets := [ Tennis.createInitialSet 1 ];
     currentSetIndex := 0%nat;
     currentGame := {| team1Points := P15; team2Points := P0 |};
     servingTeam := Team1;
     matchWinner := None;
     isComplete := false |}.

Definition tennisAfterTwo : MatchState TennisGameState :=
  {| fixtureId := "m";
     config := TENNIS_STANDARD;
     sets := [ Tennis.createInitialSet 1 ];
     currentSetIndex := 0%nat;
     currentGame := {| team1Points := P30; team2Points := P0 |};
     servingTeam := Team1;
     matchWinner := None;
     isComplete := false |}.

(** [pickleballStart] after one point for the serving team 1. *)
Definition pickleballAfterOne : MatchState PickleballGameState :=
  {| fixtureId := "m";
     config := PICKLEBALL_SIDEOUT;
     sets := [ Pickleball.createInitialSet 1 ];
     currentSetIndex := 0%nat;
     currentGame := {| pbTeam1Points := 1; pbTeam2Points := 0;
                       serverNumber := Server1 |};
     servingTeam := Team1;
     matchWinner := None;
     isComplete := false |}.

(** [pickleballMidGame] after the receiving team 2 wins the rally: the
    serve goes over to team 2, first slot; the tallies stay. *)
Definition pickleballSideOut : MatchState PickleballGameState :=
  {| fixtureId := "m";
     config := PICKLEBALL_SIDEOUT;
     sets := [ Pickleball.createInitialSet 1 ];
     currentSetIndex := 0%nat;
     currentGame := {| pbTeam1Points := 3; pbTeam2Points := 2;
                       serverNumber := Server1 |};
     servingTeam := Team2;
     matchWinner := None;
     isComplete := false |}.

(** A first set at seven points to six in its tiebreak. *)
Definition tiebreakSevenSix : SetState :=
  {| setNumber := 1; team1Games := 6; team2Games := 6;
     isTiebreak := true;
     tiebreakScore := Some {| team1 := 7; team2 := 6 |};
     winner := None |}.

(** ** The state derivation of the scorer page
    ([useMatchState] in [features/scoring/hooks/useScoring.ts]) *)




(** ** Further notions used to state properties *)

(** Points of one game played one after the other with [scoreRegularPoint],
    up to the point that wins it. *)
Fixpoint playPoints (game : TennisGameState) (advantageScoring : bool)
    (pts : list Team) : TennisGameState * option Team :=
  match pts with
  | [] => (game, None)
  | t :: pts' =>
      let '(newGame, gameWon) :=
        Tennis.scoreRegularPoint game t advantageScoring in
      match gameWon with
      | Some w => (newGame, Some w)
      | None => playPoints newGame advantageScoring pts'
      end
  end.

(** A pair of labels in which ['AD'] stands only opposite ['40']. *)
Definition validGame (g : TennisGameState) : Prop :=
  (team1Points g = AD -> team2Points g = P40)
  /\ (team2Points g = AD -> team1Points g = P40).

(** The games of a side in a set. *)
Definition gamesOf (t : Team) (st : SetState) : Z :=
  match t with Team1 => team1Games st | Team2 => team2Games st end.

(** The shape of the set list: the sets are numbered from 1 in order, the
    sets before the current one have a winner, and the current set has one
    exactly when the match is complete. *)
Record setsInOrder {G : Type} (s : MatchState G) : Prop := {
  so_numbers : forall i st,
    sets s !! i = Some st -> setNumber st = Z.of_nat i + 1;
  so_finished : forall i st,
    sets s !! i = Some st -> (i < currentSetIndex s)%nat -> winner st <> None;
  so_current : forall st,
    sets s !! currentSetIndex s = Some st ->
    (winner st = None <-> isComplete s = false)
}.

(** The sets-won tallies against the policy: below [setsToWin] for both
    sides while the match goes on; at [setsToWin] for the winner, and below
    it for the other side, once it is complete. *)
Definition setsTally {G : Type} (s : MatchState G) : Prop :=
  if isComplete s then
    exists w, matchWinner s = Some w
      /\ setsWonBy w (sets s) = setsToWin (config s)
      /\ setsWonBy (otherTeam w) (sets s) < setsToWin (config s)
  else
    setsWonBy Team1 (sets s) < setsToWin (config s)
    /\ setsWonBy Team2 (sets s) < setsToWin (config s).

(** A set as the pickleball engine leaves it: never in a tiebreak, and with
    one game, for its winner, once it is won. *)
Definition oneGameSet (st : SetState) : Prop :=
  isTiebreak st = false /\ tiebreakScore st = None
  /\ match winner st with
     | None => team1Games st = 0 /\ team2Games st = 0
     | Some w => gamesOf w st = 1 /\ gamesOf (otherTeam w) st = 0
     end.

(** A tally of the current pickleball game with which [t] would already have
    won it: the two tests of [Pickleball.scorePoint], on the tally as it
    stands. *)
Definition winningTally (config : ScoringConfig) (game : PickleballGameState)
    (t : Team) : Prop :=
  Pickleball.pointsToWin config <= Pickleball.pointsOf t game
  /\ if winByTwo config
     then 2 <= Pickleball.pointsOf t game
               - Pickleball.pointsOf (otherTeam t) game
     else Pickleball.pointsOf (otherTeam t) game < Pickleball.pointsOf t game.






(** Deuce. *)
Definition deuce : TennisGameState :=
  {| team1Points := P40; team2Points := P40 |}.

(** A rally-scoring pickleball game at 4-7, team 2 serving. *)
Definition pickleballRally : MatchState PickleballGameState :=
  {| fixtureId := "m";
     config := PICKLEBALL_STANDARD;
     sets := [ Pickleball.createInitialSet 1 ];
     currentSetIndex := 0%nat;
     currentGame := {| pbTeam1Points := 4; pbTeam2Points := 7;
                       serverNumber := Server1 |};
     servingTeam := Team2;
     matchWinner := None;
     isComplete := false |}.

(** The scores a set can stand at under a policy whose tiebreak comes at
    [gamesPerSet] games all, or one game earlier: an ongoing set is in its
    tiebreak at [tiebreakAt] games all, or below that with no winner yet; a
    finished set went to its winner through the tiebreak, by one game, or
    with [gamesPerSet] games at least and two games clear. *)
Definition setScore (config : ScoringConfig) (st : SetState) : Prop :=
  let tb := tiebreakAt config in
  match winner st with
  | None =>
      if isTiebreak st
      then team1Games st = tb /\ team2Games st = tb
      else 0 <= team1Games st <= tb /\ 0 <= team2Games st <= tb
           /\ ~ (team1Games st = tb /\ team2Games st = tb)
           /\ Tennis.checkSetWon st config = None
  | Some w =>
      if isTiebreak st
      then gamesOf w st = tb + 1 /\ gamesOf (otherTeam w) st = tb
      else gamesPerSet config <= gamesOf w st <= tb + 1
           /\ 0 <= gamesOf (otherTeam w) st <= gamesOf w st - 2
  end.

Definition standardTiebreak (config : ScoringConfig) : Prop :=
  1 <= tiebreakAt config
  /\ gamesPerSet config - 1 <= tiebreakAt config <= gamesPerSet config.

(** The tally of a set that is or was in a tiebreak: no negative count; a
    finished tiebreak has its winner at the target or beyond and two points
    clear; in a running one neither side is there yet. *)
Definition tiebreakTally (config : ScoringConfig) (st : SetState) : Prop :=
  isTiebreak st = true ->
  exists sc,
    tiebreakScore st = Some sc
    /\ 0 <= team1 sc /\ 0 <= team2 sc
    /\ match winner st with
       | Some w =>
           Tennis.tiebreakTarget st config <= Tennis.tallyOf w sc
           /\ 2 <= Tennis.tallyOf w sc - Tennis.tallyOf (otherTeam w) sc
       | None =>
           forall t,
             ~ (Tennis.tiebreakTarget st config <= Tennis.tallyOf t sc
                /\ 2 <= Tennis.tallyOf t sc - Tennis.tallyOf (otherTeam t) sc)
       end.

(** A tennis policy without tiebreak ([tiebreakAt] is 0), and a first set
    at 7-6 under it: six games all, then a game for team 1. *)
Definition TENNIS_LONG_SET : ScoringConfig :=
  {| sport := tennis; setsToWin := 2; gamesPerSet := 6; tiebreakAt := 0;
     finalSetTiebreak := false; finalSetTiebreakPoints := 0;
     advantageScoring := true; pointsPerGame := None;
     winByTwo := true; rallyScoring := false |}.

Definition tennisLongSet : MatchState TennisGameState :=
  {| fixtureId := "m";
     config := TENNIS_LONG_SET;
     sets := [ {| setNumber := 1; team1Games := 7; team2Games := 6;
                  isTiebreak := false; tiebreakScore := None;
                  winner := None |} ];
     currentSetIndex := 0%nat;
     currentGame := {| team1Points := P0; team2Points := P0 |};
     servingTeam := Team2;
     matchWinner := None;
     isComplete := false |}.

(** The points that lead from [pickleballStart] to [pickleballMidGame], and
    from the initial state of a rally-scoring match served by team 2 to
    [pickleballRally]. *)
Definition midGamePoints : list Team :=
  [Team1; Team1; Team1; Team2; Team2; Team2; Team2; Team1; Team1; Team2].

Definition rallyPoints : list Team :=
  replicate 4 Team1 ++ replicate 7 Team2.

(** [pickleballRally] after team 1 wins the next rally. *)
Definition pickleballRallyNext : MatchState PickleballGameState :=
  {| fixtureId := "m";
     config := PICKLEBALL_STANDARD;
     sets := [ Pickleball.createInitialSet 1 ];
     currentSetIndex := 0%nat;
     currentGame := {| pbTeam1Points := 5; pbTeam2Points := 7;
                       serverNumber := Server1 |};
     servingTeam := Team1;
     matchWinner := None;
     isComplete := false |}.

(** Game ball for team 1 at 10-0 in the first game of a side-out match,
    and the state one point later: the second game begins. *)
Definition pickleballGameBall : MatchState PickleballGameState :=
  {| fixtureId := "m";
     config := PICKLEBALL_SIDEOUT;
     sets := [ Pickleball.createInitialSet 1 ];
     currentSetIndex := 0%nat;
     currentGame := {| pbTeam1Points := 10; pbTeam2Points := 0;
                       serverNumber := Server1 |};
     servingTeam := Team1;
     matchWinner := None;
     isComplete := false |}.

Definition pickleballSecondGame : MatchState PickleballGameState :=
  {| fixtureId := "m";
     config := PICKLEBALL_SIDEOUT;
     sets := [ {| setNumber := 1; team1Games := 1; team2Games := 0;
                  isTiebreak := false; tiebreakScore := None;
                  winner := Some Team1 |};
               Pickleball.createInitialSet 2 ];
     currentSetIndex := 1%nat;
     currentGame := Pickleball.createInitialGame;
     servingTeam := Team2;
     matchWinner := None;
     isComplete := false |}.

(** ** Case analysis of a scoring step *)

(** Split a hypothesis [scorePoint s t = Ok s'] along the branches of the
    engine. *)
Ltac tennis_cases H :=
  unfold Tennis.scorePoint in H;
  unfold mbind, result_bind in H;
  repeat (case_match; simplify_eq/=; try done).

Ltac pickleball_cases H :=
  unfold Pickleball.scorePoint in H;
  repeat (case_match; simplify_eq/=; try done).

(** Split a goal on every set of a list into goals on the sets that a step
    put there. *)
Ltac sets_goal :=
  unfold replaceSet;
  repeat match goal with
  | |- Forall _ (_ ++ _) => apply Forall_app_2
  | |- Forall _ (<[_:=_]> _) => apply Forall_insert
  | |- Forall _ [_] => apply Forall_singleton
  end; simpl; try done.

Ltac sets_split :=
  unfold replaceSet;
  repeat match goal with
  | |- Forall _ (_ ++ _) => apply Forall_app_2
  | |- Forall _ (<[_:=_]> _) => apply Forall_insert
  | |- Forall _ [_] => apply Forall_singleton
  end; try assumption.

(* ================================================================== *)
(** * Properties *)
(* ================================================================== *)

(** ** The model against the repository's tests *)

Example test_0_to_15 :
  currentGame <$> Tennis.scorePoint tennisStart Team1
  = Ok {| team1Points := P15; team2Points := P0 |}.
Proof. reflexivity. Qed.

Example test_game_after_four_points :
  (fun s => (team1Games <$> sets s !! 0%nat, currentGame s, servingTeam s))
    <$> scorePoints tennisScorer tennisStart (replicate 4 Team1)
  = Ok (Some 1, {| team1Points := P0; team2Points := P0 |}, Team2).
Proof. reflexivity. Qed.

Example test_advantage_and_back_to_deuce :
  currentGame <$> scorePoints tennisScorer tennisStart
                    [Team1; Team1; Team1; Team2; Team2; Team2; Team1]
  = Ok {| team1Points := AD; team2Points := P40 |}
  /\ currentGame <$> scorePoints tennisScorer tennisStart
                    [Team1; Team1; Team1; Team2; Team2; Team2; Team1; Team2]
  = Ok {| team1Points := P40; team2Points := P40 |}.
Proof. split; reflexivity. Qed.

Example test_sudden_death_fast4 :
  (fun s => team1Games <$> sets s !! 0%nat)
    <$> scorePoints tennisScorer (Tennis.createInitialState "m" TENNIS_FAST4 Team1)
          [Team1; Team1; Team1; Team2; Team2; Team2; Team1]
  = Ok (Some 1).
Proof. reflexivity. Qed.

Example test_tiebreak_starts_at_six_all :
  scorePoints tennisScorer tennisStart sixGamesAll = Ok tennisTiebreakStart.
Proof. vm_compute. reflexivity. Qed.

Example test_tiebreak_win_by_two :
  (fun s => winner <$> sets s !! 0%nat)
    <$> scorePoints tennisScorer tennisTiebreakStart
          (concat (replicate 6 [Team1; Team2]) ++ [Team1])
  = Ok (Some None)
  /\ (fun s => winner <$> sets s !! 0%nat)
    <$> scorePoints tennisScorer tennisTiebreakStart
          (concat (replicate 6 [Team1; Team2]) ++ [Team1; Team1])
  = Ok (Some (Some Team1)).
Proof. split; vm_compute; reflexivity. Qed.

Example test_match_completion :
  scorePoints tennisScorer tennisStart (replicate 47 Team1) = Ok tennisMatchPoint
  /\ Tennis.scorePoint tennisMatchPoint Team1 = Ok tennisMatchWon.
Proof. split; vm_compute; reflexivity. Qed.

(** ** Basic facts *)

Lemma otherTeam_involutive t : otherTeam (otherTeam t) = t.
Proof. by destruct t. Qed.

Lemma otherTeam_neq t : otherTeam t <> t.
Proof. by destruct t. Qed.

Section RunFacts.
Context {G : Type} (E : ScoringEngine G).

Lemma scorePoints_app s pts1 pts2 :
  scorePoints E s (pts1 ++ pts2)
  = s' ← scorePoints E s pts1; scorePoints E s' pts2.
Proof.
  revert s. induction pts1 as [|t pts1 IH]; intros s; simpl; [done|].
  unfold mbind, result_bind. destruct (scorePoint E s t); [apply IH | done].
Qed.

(** A state obtained by a run from a reachable state is reachable. *)
Lemma reachable_scorePoints pts : forall s s',
  reachable E s -> scorePoints E s pts = Ok s' -> reachable E s'.
Proof.
  induction pts as [|t pts IH]; intros s s' Hs Hrun; simpl in Hrun.
  - by inversion Hrun; subst.
  - unfold mbind, result_bind in Hrun.
    destruct (scorePoint E s t) as [s1|] eqn:Hstep; [|done].
    eapply IH; [|exact Hrun]. by eapply reachable_step.
Qed.

(** Induction on the states an engine reaches. *)
Lemma reachable_invariant (P : MatchState G -> Prop) :
  (forall fid cfg srv, P (createInitialState E fid cfg srv)) ->
  (forall s t s', P s -> scorePoint E s t = Ok s' -> P s') ->
  forall s, reachable E s -> P s.
Proof. intros Hinit Hstep s Hs. induction Hs; eauto. Qed.
End RunFacts.

Lemma tennisMatchPoint_reachable : reachable tennisScorer tennisMatchPoint.
Proof.
  apply (reachable_scorePoints tennisScorer (replicate 47 Team1) tennisStart).
  - apply (reachable_init tennisScorer).
  - vm_compute. reflexivity.
Qed.

Lemma tennisMatchWon_reachable : reachable tennisScorer tennisMatchWon.
Proof.
  apply (reachable_step tennisScorer tennisMatchPoint Team1).
  - apply tennisMatchPoint_reachable.
  - vm_compute. reflexivity.
Qed.

Lemma tennisTiebreakStart_reachable : reachable tennisScorer tennisTiebreakStart.
Proof.
  apply (reachable_scorePoints tennisScorer sixGamesAll tennisStart).
  - apply (reachable_init tennisScorer).
  - vm_compute. reflexivity.
Qed.

(** Team 1 serves and wins the first game 11-0; team 2 serves first in the
    second game and loses both of its serves; team 1 then wins 11-0. *)
Lemma pickleballMatchWon_reachable : reachable pickleballScorer pickleballMatchWon.
Proof.
  apply (reachable_scorePoints pickleballScorer (replicate 24 Team1) pickleballStart).
  - apply (reachable_init pickleballScorer).
  - vm_compute. reflexivity.
Qed.

(** ** Completed matches *)

(** C3. Post-completion no-op: on a state whose [isComplete] flag is set,
    [scorePoint] returns that state unchanged, whichever side scores; in the
    tennis engine and in the pickleball engine. *)
Theorem scorePoint_complete_noop :
  (forall (s : MatchState TennisGameState) (t : Team),
      isComplete s = true -> Tennis.scorePoint s t = Ok s)
  /\ (forall (s : MatchState PickleballGameState) (t : Team),
      isComplete s = true -> Pickleball.scorePoint s t = Ok s).
Proof.
  split; intros s t Hc.
  - unfold Tennis.scorePoint. by rewrite Hc.
  - unfold Pickleball.scorePoint. by rewrite Hc.
Qed.

Lemma scorePoint_complete_noop_witness :
  (isComplete tennisMatchWon = true
   /\ Tennis.scorePoint tennisMatchWon Team2 = Ok tennisMatchWon)
  /\ (isComplete pickleballMatchWon = true
   /\ Pickleball.scorePoint pickleballMatchWon Team2 = Ok pickleballMatchWon).
Proof.
  split; (split; [reflexivity|]).
  - apply (proj1 scorePoint_complete_noop). reflexivity.
  - apply (proj2 scorePoint_complete_noop). reflexivity.
Defined.

Lemma tennis_step_winner s t s' :
  winnerIffComplete s -> Tennis.scorePoint s t = Ok s' -> winnerIffComplete s'.
Proof.
  unfold winnerIffComplete. intros Hs H. tennis_cases H.
  all: try (split; [done | intros [=]]).
  all: try (split; done).
  by apply Hs.
Qed.

Lemma pickleball_step_winner s t s' :
  winnerIffComplete s -> Pickleball.scorePoint s t = Ok s' -> winnerIffComplete s'.
Proof.
  unfold winnerIffComplete. intros Hs H. pickleball_cases H.
  all: try (split; [done | intros [=]]).
  all: try (split; done).
  by apply Hs.
Qed.

(** C5. Reachable-state invariant: in every state that either engine reaches
    from its initial state by [scorePoint] calls, [matchWinner] is non-null
    if and only if [isComplete] is true. *)
Theorem matchWinner_iff_isComplete :
  (forall s, reachable tennisScorer s ->
      (matchWinner s <> None <-> isComplete s = true))
  /\ (forall s, reachable pickleballScorer s ->
      (matchWinner s <> None <-> isComplete s = true)).
Proof.
  split.
  - apply (reachable_invariant tennisScorer winnerIffComplete).
    + intros fid cfg srv. by split.
    + intros s t s'. apply tennis_step_winner.
  - apply (reachable_invariant pickleballScorer winnerIffComplete).
    + intros fid cfg srv. by split.
    + intros s t s'. apply pickleball_step_winner.
Qed.

Lemma matchWinner_iff_isComplete_witness :
  (matchWinner tennisMatchWon <> None <-> isComplete tennisMatchWon = true)
  /\ (matchWinner tennisMatchPoint <> None <-> isComplete tennisMatchPoint = true)
  /\ (matchWinner pickleballMatchWon <> None
       <-> isComplete pickleballMatchWon = true).
Proof.
  split; [|split].
  - apply (proj1 matchWinner_iff_isComplete), tennisMatchWon_reachable.
  - apply (proj1 matchWinner_iff_isComplete), tennisMatchPoint_reachable.
  - apply (proj2 matchWinner_iff_isComplete), pickleballMatchWon_reachable.
Defined.

(** ** Well-formed states and the tiebreak tally *)

Lemma scoreTiebreakPoint_tally cs t cfg newSet w :
  Tennis.scoreTiebreakPoint cs t cfg = Ok (newSet, w) ->
  tiebreakScore newSet <> None.
Proof.
  unfold Tennis.scoreTiebreakPoint. intros H.
  repeat case_match; simplify_eq/=; done.
Qed.

Lemma scoreTiebreakPoint_returns cs t cfg :
  tiebreakScore cs <> None ->
  exists r, Tennis.scoreTiebreakPoint cs t cfg = Ok r.
Proof.
  unfold Tennis.scoreTiebreakPoint. intros H.
  destruct (tiebreakScore cs); [|done]. case_match; eauto.
Qed.

Lemma tennis_step_wellFormed s t s' :
  wellFormed s -> Tennis.scorePoint s t = Ok s' -> wellFormed s'.
Proof.
  intros Hs H. pose proof Hs as [Hlen Hall].
  assert (Hcur : forall cs, sets s !! currentSetIndex s = Some cs ->
                   isTiebreak cs = true -> tiebreakScore cs <> None).
  { intros cs Hcs. by apply (Forall_lookup_1 _ _ _ _ Hall Hcs). }
  tennis_cases H.
  all: try match goal with
       | H : Tennis.scoreTiebreakPoint _ _ _ = Ok _ |- _ =>
           apply scoreTiebreakPoint_tally in H
       end.
  all: split; simpl; unfold replaceSet;
    rewrite ?length_app, ?length_insert; simpl; try lia.
  all: rewrite ?Forall_app; repeat split; try (apply Forall_insert); try done.
  all: try (apply Forall_singleton; done).
  all: simpl; eauto.
Qed.

Lemma pickleball_step_wellFormed s t s' :
  wellFormed s -> Pickleball.scorePoint s t = Ok s' -> wellFormed s'.
Proof.
  intros Hs H. pose proof Hs as [Hlen Hall].
  assert (Hcur : forall cs, sets s !! currentSetIndex s = Some cs ->
                   isTiebreak cs = true -> tiebreakScore cs <> None).
  { intros cs Hcs. by apply (Forall_lookup_1 _ _ _ _ Hall Hcs). }
  pickleball_cases H.
  all: split; simpl; unfold replaceSet;
    rewrite ?length_app, ?length_insert; simpl; try lia.
  all: rewrite ?Forall_app; repeat split; try (apply Forall_insert); try done.
  all: try (apply Forall_singleton; done).
  all: simpl; eauto.
Qed.

Lemma tennis_reachable_wellFormed s :
  reachable tennisScorer s -> wellFormed s.
Proof.
  revert s. apply (reachable_invariant tennisScorer).
  - intros fid cfg srv. split; simpl; [done|]. by apply Forall_singleton.
  - intros s t s'. apply tennis_step_wellFormed.
Qed.

Lemma pickleball_reachable_wellFormed s :
  reachable pickleballScorer s -> wellFormed s.
Proof.
  revert s. apply (reachable_invariant pickleballScorer).
  - intros fid cfg srv. split; simpl; [done|]. by apply Forall_singleton.
  - intros s t s'. apply pickleball_step_wellFormed.
Qed.

(** On a well-formed state the tennis engine returns a state: neither of its
    two failures occurs. *)
Lemma tennis_scorePoint_returns s t :
  wellFormed s -> exists s', Tennis.scorePoint s t = Ok s'.
Proof.
  intros [Hlen Hall]. unfold Tennis.scorePoint.
  destruct (isComplete s); [eauto|].
  destruct (sets s !! currentSetIndex s) as [cs|] eqn:Hcs.
  2: { apply lookup_ge_None in Hcs. lia. }
  destruct (isTiebreak cs) eqn:Htb.
  - destruct (scoreTiebreakPoint_returns cs t (config s)) as [[newSet w] Hr].
    { by apply (Forall_lookup_1 _ _ _ _ Hall Hcs). }
    rewrite Hr. unfold mbind, result_bind. repeat case_match; eauto.
  - repeat case_match; eauto.
Qed.

(** The pickleball engine too returns a state on a well-formed state. *)
Lemma pickleball_scorePoint_returns s t :
  wellFormed s -> exists s', Pickleball.scorePoint s t = Ok s'.
Proof.
  intros [Hlen Hall]. unfold Pickleball.scorePoint.
  destruct (sets s !! currentSetIndex s) as [cs|] eqn:Hcs.
  2: { apply lookup_ge_None in Hcs. lia. }
  repeat case_match; eauto.
Qed.

(** C9. Tiebreak-tally safety: in every state that the tennis engine reaches
    from its initial state, every set with [isTiebreak = true] has a non-null
    [tiebreakScore]; hence [scorePoint] returns a state there for either
    side, and never fails with "Tiebreak score not initialized". *)
Theorem tiebreak_tally_initialized s :
  reachable tennisScorer s ->
  Forall (fun st => isTiebreak st = true -> tiebreakScore st <> None) (sets s)
  /\ (forall t, exists s', Tennis.scorePoint s t = Ok s')
  /\ (forall t, Tennis.scorePoint s t <> Throw TiebreakScoreNotInitialized).
Proof.
  intros Hs. apply tennis_reachable_wellFormed in Hs.
  split; [apply Hs|]. split; intros t.
  - by apply tennis_scorePoint_returns.
  - destruct (tennis_scorePoint_returns s t Hs) as [s' Hs']. by rewrite Hs'.
Qed.

Lemma tiebreak_tally_initialized_witness :
  Forall (fun st => isTiebreak st = true -> tiebreakScore st <> None)
         (sets tennisTiebreakStart)
  /\ (forall t, exists s', Tennis.scorePoint tennisTiebreakStart t = Ok s')
  /\ (forall t, Tennis.scorePoint tennisTiebreakStart t
                <> Throw TiebreakScoreNotInitialized).
Proof.
  apply (tiebreak_tally_initialized tennisTiebreakStart).
  apply tennisTiebreakStart_reachable.
Defined.

(** ** The tiebreak *)

(** C6. Tiebreak win condition: a tiebreak point adds one to the tally of the
    scoring side and leaves the other tally; the scoring side wins the set
    exactly when its new tally has reached the target (7, or
    [finalSetTiebreakPoints] when the set is the deciding set, number
    [2 * setsToWin - 1], and [finalSetTiebreak] is on) and leads by at least
    2; otherwise nobody wins the set and play goes on. *)
Theorem tiebreak_win_condition
    (set : SetState) (score : TiebreakScore) (t : Team) (cfg : ScoringConfig) :
  tiebreakScore set = Some score ->
  let target :=
    if (setNumber set =? setsToWin cfg * 2 - 1) && finalSetTiebreak cfg
    then finalSetTiebreakPoints cfg else 7 in
  let mine := Tennis.tallyOf t score + 1 in
  let theirs := Tennis.tallyOf (otherTeam t) score in
  exists newSet setWon newScore,
    Tennis.scoreTiebreakPoint set t cfg = Ok (newSet, setWon)
    /\ tiebreakScore newSet = Some newScore
    /\ Tennis.tallyOf t newScore = mine
    /\ Tennis.tallyOf (otherTeam t) newScore = theirs
    /\ (setWon = Some t <-> target <= mine /\ 2 <= mine - theirs)
    /\ (setWon = Some t -> winner newSet = Some t)
    /\ (setWon <> Some t ->
          setWon = None /\ winner newSet = winner set
          /\ team1Games newSet = team1Games set
          /\ team2Games newSet = team2Games set).
Proof.
  intros Hsc target mine theirs.
  unfold Tennis.scoreTiebreakPoint. rewrite Hsc.
  fold target. unfold Tennis.tiebreakTarget. fold target.
  assert (Hmine : Tennis.tallyOf t
            (Tennis.withTally t (Tennis.tallyOf t score + 1) score) = mine)
    by by destruct t.
  assert (Htheirs : Tennis.tallyOf (otherTeam t)
            (Tennis.withTally t (Tennis.tallyOf t score + 1) score) = theirs)
    by by destruct t.
  rewrite Hmine, Htheirs.
  destruct ((mine >=? target) && (mine - theirs >=? 2)) eqn:Hwin.
  - apply andb_true_iff in Hwin as [H1 H2].
    rewrite Z.geb_leb in H1, H2. apply Z.leb_le in H1, H2.
    eexists _, _, _. repeat split; simpl; eauto; try done.
  - eexists _, _, _. repeat split; simpl; eauto; try done.
    intros [H1 H2]. apply andb_false_iff in Hwin.
    rewrite !Z.geb_leb in Hwin.
    destruct Hwin as [Hwin|Hwin]; apply Z.leb_gt in Hwin; lia.
Qed.

Lemma tiebreak_win_condition_witness :
  tiebreakScore tiebreakSevenSix = Some {| team1 := 7; team2 := 6 |}
  /\ exists newSet,
       Tennis.scoreTiebreakPoint tiebreakSevenSix Team1 TENNIS_STANDARD
       = Ok (newSet, Some Team1)
       /\ winner newSet = Some Team1.
Proof.
  split; [reflexivity|].
  destruct (tiebreak_win_condition tiebreakSevenSix
              {| team1 := 7; team2 := 6 |} Team1 TENNIS_STANDARD eq_refl)
    as (newSet & setWon & newScore & Hrun & _ & _ & _ & Hiff & Hwin & _).
  assert (Hw : setWon = Some Team1) by (apply Hiff; simpl; lia).
  exists newSet. split; [by rewrite <- Hw | by apply Hwin].
Defined.

Lemma even_half_step n :
  0 <= n ->
  Z.even ((n + 2) / 2)
  = if n mod 2 =? 0 then negb (Z.even ((n + 1) / 2)) else Z.even ((n + 1) / 2).
Proof.
  intros Hn.
  destruct (Z.eqb_spec (n mod 2) 0) as [H|H].
  - replace ((n + 2) / 2) with (Z.succ ((n + 1) / 2)).
    + by rewrite Z.even_succ, Z.negb_even.
    + Z.div_mod_to_equations. lia.
  - f_equal. Z.div_mod_to_equations. lia.
Qed.

(** After the [n+1]-th tiebreak point the engine hands the serve to the side
    that the serving order names for point [n+2]. *)
Lemma tiebreakServer_next first n :
  0 <= n ->
  Tennis.updateServerInTiebreak (tiebreakServer first (n + 1)) (n + 1)
  = tiebreakServer first (n + 2).
Proof.
  intros Hn. unfold Tennis.updateServerInTiebreak, tiebreakServer.
  replace (n + 1 - 1) with n by lia.
  rewrite Z.rem_mod_nonneg by lia.
  rewrite (even_half_step n Hn).
  destruct (Z.eqb_spec (n + 1) 0) as [?|_]; [lia|].
  destruct (Z.eqb_spec (n + 1) 1) as [H1|H1].
  - replace n with 0 by lia. by destruct first.
  - destruct (n mod 2 =? 0); destruct (Z.even ((n + 1) / 2)); by destruct first.
Qed.

(** The serving order read off [tiebreakServer]: the first side serves
    point 1; points [2k] and [2k+1] have the same server; the server changes
    after every odd point. *)
Lemma tiebreakServer_order first :
  tiebreakServer first 1 = first
  /\ (forall k, 1 <= k ->
        tiebreakServer first (2 * k) = tiebreakServer first (2 * k + 1))
  /\ (forall k, 0 <= k ->
        tiebreakServer first (2 * k + 2)
        = otherTeam (tiebreakServer first (2 * k + 1))).
Proof.
  unfold tiebreakServer. split; [done|]. split; intros k Hk.
  - replace ((2 * k + 1) / 2) with k by (Z.div_mod_to_equations; lia).
    replace (2 * k / 2) with k by (Z.div_mod_to_equations; lia). done.
  - replace ((2 * k + 1) / 2) with k by (Z.div_mod_to_equations; lia).
    replace ((2 * k + 2) / 2) with (Z.succ k) by (Z.div_mod_to_equations; lia).
    rewrite Z.even_succ, <- Z.negb_even.
    destruct (Z.even k); simpl; by rewrite ?otherTeam_involutive.
Qed.

Lemma scorePoints_complete s pts :
  isComplete s = true -> scorePoints tennisScorer s pts = Ok s.
Proof.
  intros Hc. induction pts as [|t pts IH]; simpl; [done|].
  unfold Tennis.scorePoint at 1. rewrite Hc. exact IH.
Qed.

Lemma tennis_step_index s t s' :
  Tennis.scorePoint s t = Ok s' ->
  (currentSetIndex s <= currentSetIndex s')%nat.
Proof. intros H. tennis_cases H; lia. Qed.

Lemma tennis_run_index pts : forall s s',
  scorePoints tennisScorer s pts = Ok s' ->
  (currentSetIndex s <= currentSetIndex s')%nat.
Proof.
  induction pts as [|t pts IH]; intros s s' H; simpl in H.
  - by simplify_eq.
  - unfold mbind, result_bind in H.
    destruct (Tennis.scorePoint s t) as [s1|] eqn:Hstep; [|done].
    apply tennis_step_index in Hstep. apply IH in H. lia.
Qed.

(** One point of a tiebreak: it ends the match, or it ends the set and a new
    set starts, or the tiebreak goes on with one more point played and the
    server that [updateServerInTiebreak] names. *)
Lemma tennis_tiebreak_step s t s' n :
  isComplete s = false ->
  tiebreakPointsPlayed s = Some n ->
  Tennis.scorePoint s t = Ok s' ->
  isComplete s' = true
  \/ currentSetIndex s' = S (currentSetIndex s)
  \/ (isComplete s' = false /\ currentSetIndex s' = currentSetIndex s
      /\ tiebreakPointsPlayed s' = Some (n + 1)
      /\ servingTeam s' = Tennis.updateServerInTiebreak (servingTeam s) (n + 1)).
Proof.
  unfold tiebreakPointsPlayed. intros Hc Hn H.
  destruct (sets s !! currentSetIndex s) as [cs|] eqn:Hcs; [|done].
  destruct (isTiebreak cs) eqn:Htb; [|done].
  destruct (tiebreakScore cs) as [sc|] eqn:Hsc; [|done].
  simpl in Hn. simplify_eq.
  unfold Tennis.scorePoint in H. rewrite Hc, Hcs, Htb in H.
  unfold Tennis.scoreTiebreakPoint in H. rewrite Hsc in H.
  unfold mbind, result_bind in H.
  assert (Hlt : (currentSetIndex s < length (sets s))%nat)
    by by eapply lookup_lt_Some.
  match type of H with context [if ?c then _ else _] => destruct c end.
  - match type of H with context [if ?c then _ else _] => destruct c end;
      simplify_eq/=; auto. right; left; lia.
  - simplify_eq/=. right; right. unfold tiebreakPointsPlayed, replaceSet; simpl.
    rewrite list_lookup_insert_eq by done. simpl. rewrite Htb. simpl.
    repeat split; try done.
    + f_equal. destruct t; simpl; lia.
    + f_equal. destruct t; simpl; lia.
Qed.

Lemma tiebreak_rotation_from pts : forall s s' first n,
  0 <= n ->
  isComplete s = false ->
  tiebreakPointsPlayed s = Some n ->
  servingTeam s = tiebreakServer first (n + 1) ->
  scorePoints tennisScorer s pts = Ok s' ->
  isComplete s' = false ->
  currentSetIndex s' = currentSetIndex s ->
  tiebreakPointsPlayed s' = Some (n + Z.of_nat (length pts))
  /\ servingTeam s' = tiebreakServer first (n + Z.of_nat (length pts) + 1).
Proof.
  induction pts as [|t pts IH]; intros s s' first n Hn Hc Hpl Hsrv Hrun Hc' Hidx.
  - simpl in *. simplify_eq. rewrite Z.add_0_r. done.
  - simpl in Hrun. unfold mbind, result_bind in Hrun.
    destruct (Tennis.scorePoint s t) as [s1|] eqn:Hstep; [|done].
    destruct (tennis_tiebreak_step s t s1 n Hc Hpl Hstep)
      as [H1|[H1|(H1&H2&H3&H4)]].
    + rewrite (scorePoints_complete s1 pts H1) in Hrun. congruence.
    + apply tennis_run_index in Hrun. lia.
    + replace (n + Z.of_nat (length (t :: pts)))
        with (n + 1 + Z.of_nat (length pts)) by (simpl length; lia).
      apply (IH s1 s' first (n + 1)); try done.
      * lia.
      * rewrite H4, Hsrv. replace (n + 1 + 1) with (n + 2) by lia.
        by apply tiebreakServer_next.
      * congruence.
Qed.

(** C7. Tiebreak serve rotation: let a tiebreak start in [s0] (no tiebreak
    point played yet) and let the points [pts] be played without deciding it
    (the match is not complete and the same set is still the current one).
    Then the tiebreak has [length pts] points played and the side to serve
    the next point, number [length pts + 1], is the one of the serving
    order: the side that served first for point 1, the other side for points
    2 and 3, the first side for points 4 and 5, and so on
    ([tiebreakServer_order]). *)
Theorem tiebreak_serve_rotation s0 pts s :
  isComplete s0 = false ->
  tiebreakPointsPlayed s0 = Some 0 ->
  scorePoints tennisScorer s0 pts = Ok s ->
  isComplete s = false ->
  currentSetIndex s = currentSetIndex s0 ->
  tiebreakPointsPlayed s = Some (Z.of_nat (length pts))
  /\ servingTeam s = tiebreakServer (servingTeam s0) (Z.of_nat (length pts) + 1).
Proof.
  intros Hc Hpl Hrun Hc' Hidx.
  apply (tiebreak_rotation_from pts s0 s (servingTeam s0) 0); try done.
Qed.

Lemma tiebreak_serve_rotation_witness :
  scorePoints tennisScorer tennisTiebreakStart
    [Team1; Team2; Team2; Team1; Team1] = Ok tennisTiebreakFive
  /\ tiebreakPointsPlayed tennisTiebreakFive = Some 5
  /\ servingTeam tennisTiebreakFive = Team2.
Proof.
  assert (Hrun : scorePoints tennisScorer tennisTiebreakStart
                   [Team1; Team2; Team2; Team1; Team1] = Ok tennisTiebreakFive)
    by reflexivity.
  split; [exact Hrun|].
  apply (tiebreak_serve_rotation tennisTiebreakStart
           [Team1; Team2; Team2; Team1; Team1] tennisTiebreakFive);
    [reflexivity | reflexivity | exact Hrun | reflexivity | reflexivity].
Defined.

(** ** Serving after a game *)

(** C4, as the engine has it. Server rotation after games: for every
    [scorePoint] transition in which a game completes and the match is not
    completed by it (a game that ends a set included), the serving side of
    the returned state is the opposite of the serving side of the input
    state; a game that ends the match leaves the serving side as it was. *)
Theorem server_rotation_after_game s t s' :
  Tennis.scorePoint s t = Ok s' ->
  gameCompletes s t = true ->
  (isComplete s' = false -> servingTeam s' = otherTeam (servingTeam s))
  /\ (isComplete s' = true -> servingTeam s' = servingTeam s).
Proof.
  intros H Hg. unfold gameCompletes in Hg.
  tennis_cases H; split; intros Hc; simplify_eq/=; try done.
Qed.

Lemma server_rotation_after_game_witness :
  (* the game that ends the first set *)
  (Tennis.scorePoint tennisSetPoint Team1 = Ok tennisSecondSet
   /\ gameCompletes tennisSetPoint Team1 = true
   /\ servingTeam tennisSecondSet = otherTeam (servingTeam tennisSetPoint))
  (* the game that ends the match *)
  /\ (Tennis.scorePoint tennisMatchPoint Team1 = Ok tennisMatchWon
      /\ gameCompletes tennisMatchPoint Team1 = true
      /\ servingTeam tennisMatchWon = servingTeam tennisMatchPoint).
Proof.
  split; (split; [reflexivity|]); (split; [reflexivity|]).
  - apply (proj1 (server_rotation_after_game
                    tennisSetPoint Team1 tennisSecondSet eq_refl eq_refl)).
    reflexivity.
  - apply (proj2 (server_rotation_after_game
                    tennisMatchPoint Team1 tennisMatchWon eq_refl eq_refl)).
    reflexivity.
Defined.

(** C4 as the specification words it, with the game that ends the match
    included, does not hold: at [tennisMatchPoint], a state the engine
    reaches, the point for team 1 completes a game, and the serving side
    stays team 2. *)
Lemma server_rotation_match_end_counterexample :
  reachable tennisScorer tennisMatchPoint
  /\ Tennis.scorePoint tennisMatchPoint Team1 = Ok tennisMatchWon
  /\ gameCompletes tennisMatchPoint Team1 = true
  /\ servingTeam tennisMatchPoint = Team2
  /\ servingTeam tennisMatchWon = Team2
  /\ servingTeam tennisMatchWon <> otherTeam (servingTeam tennisMatchPoint).
Proof.
  split; [apply tennisMatchPoint_reachable|].
  repeat split; done.
Qed.

(** ** Side-out serving *)

(** C8. Side-out serving discipline: under side-out scoring
    ([rallyScoring = false]), in every state of a match in play in which the
    scoring side is not the serving side, [scorePoint] awards no point (both
    tallies and the sets are unchanged); from server slot 1 the serve goes
    to slot 2 of the same side, and from slot 2 it goes to the other side
    with the slot back at 1. A complete match is under the rule of C3, which
    comes first in [scorePoint]: the state is returned as it is. *)
Theorem sideout_serving_discipline s t :
  isComplete s = false ->
  rallyScoring (config s) = false ->
  t <> servingTeam s ->
  exists s',
    Pickleball.scorePoint s t = Ok s'
    /\ pbTeam1Points (currentGame s') = pbTeam1Points (currentGame s)
    /\ pbTeam2Points (currentGame s') = pbTeam2Points (currentGame s)
    /\ sets s' = sets s
    /\ match serverNumber (currentGame s) with
       | Server1 => serverNumber (currentGame s') = Server2
                    /\ servingTeam s' = servingTeam s
       | Server2 => serverNumber (currentGame s') = Server1
                    /\ servingTeam s' = otherTeam (servingTeam s)
       end.
Proof.
  intros Hc Hr Ht. unfold Pickleball.scorePoint.
  rewrite Hc, Hr. rewrite (bool_decide_eq_false_2 _ Ht). simpl.
  destruct (serverNumber (currentGame s)); eexists; repeat split.
Qed.

Lemma sideout_serving_discipline_witness :
  Pickleball.scorePoint pickleballMidGame Team2 = Ok pickleballSideOut
  /\ exists s',
       Pickleball.scorePoint pickleballMidGame Team2 = Ok s'
       /\ pbTeam1Points (currentGame s') = 3
       /\ pbTeam2Points (currentGame s') = 2
       /\ sets s' = sets pickleballMidGame
       /\ serverNumber (currentGame s') = Server1
       /\ servingTeam s' = Team2.
Proof.
  split; [reflexivity|].
  apply (sideout_serving_discipline pickleballMidGame Team2);
    [reflexivity | reflexivity | discriminate].
Defined.

(** ** The points-per-game target *)

(** C10. Implicit default target: when [pointsPerGame] is absent from the
    policy, the game-win check of the pickleball [scorePoint] uses 11: a
    point that is awarded wins the game (the current set gets its winner)
    when the scoring side reaches 11 with the required lead, and otherwise
    is added to the tally and the game goes on. *)
Theorem default_points_per_game s t cs :
  pointsPerGame (config s) = None ->
  isComplete s = false ->
  rallyScoring (config s) = true \/ t = servingTeam s ->
  sets s !! currentSetIndex s = Some cs ->
  let newPoints := Pickleball.pointsOf t (currentGame s) + 1 in
  let otherPoints := Pickleball.pointsOf (otherTeam t) (currentGame s) in
  let lead :=
    if winByTwo (config s) then 2 <= newPoints - otherPoints
    else otherPoints < newPoints in
  Pickleball.pointsToWin (config s) = 11
  /\ exists s',
      Pickleball.scorePoint s t = Ok s'
      /\ (11 <= newPoints /\ lead ->
            winner <$> sets s' !! currentSetIndex s = Some (Some t))
      /\ (~ (11 <= newPoints /\ lead) ->
            sets s' = sets s
            /\ currentSetIndex s' = currentSetIndex s
            /\ currentGame s' = Pickleball.withPoints t newPoints (currentGame s)
            /\ isComplete s' = false).
Proof.
  intros Hpp Hc Haward Hcs newPoints otherPoints lead.
  assert (Htarget : Pickleball.pointsToWin (config s) = 11)
    by (unfold Pickleball.pointsToWin; by rewrite Hpp).
  split; [exact Htarget|].
  assert (Hlt : (currentSetIndex s < length (sets s))%nat)
    by by eapply lookup_lt_Some.
  unfold Pickleball.scorePoint. rewrite Hc, Htarget, Hcs.
  assert (Hgate : negb (rallyScoring (config s))
                  && negb (bool_decide (t = servingTeam s)) = false).
  { destruct Haward as [->| ->]; [done|].
    rewrite bool_decide_eq_true_2 by done. apply andb_false_r. }
  rewrite Hgate. fold newPoints otherPoints.
  assert (Hlead : (if winByTwo (config s) then newPoints - otherPoints >=? 2
                   else newPoints >? otherPoints) = true <-> lead).
  { unfold lead. destruct (winByTwo (config s)).
    - rewrite Z.geb_leb. apply Z.leb_le.
    - rewrite Z.gtb_ltb. apply Z.ltb_lt. }
  destruct ((newPoints >=? 11)
            && (if winByTwo (config s) then newPoints - otherPoints >=? 2
                else newPoints >? otherPoints)) eqn:Hwin.
  - apply andb_true_iff in Hwin as [H1 H2].
    destruct (_ || _); eexists; (split; [reflexivity|]); simpl; unfold replaceSet.
    + split; [intros _|intros Hn; exfalso; apply Hn].
      * by rewrite list_lookup_insert_eq.
      * split; [rewrite Z.geb_leb in H1; by apply Z.leb_le | by apply Hlead].
    + split; [intros _|intros Hn; exfalso; apply Hn].
      * rewrite lookup_app_l by (by rewrite length_insert).
        by rewrite list_lookup_insert_eq.
      * split; [rewrite Z.geb_leb in H1; by apply Z.leb_le | by apply Hlead].
  - eexists; (split; [reflexivity|]); simpl.
    split; [|done].
    intros [H1 H2]. apply andb_false_iff in Hwin as [Hwin|Hwin].
    + rewrite Z.geb_leb in Hwin. apply Z.leb_gt in Hwin. lia.
    + apply Hlead in H2. congruence.
Qed.

Lemma default_points_per_game_witness :
  pointsPerGame (config pickleballGamePoint) = None
  /\ Pickleball.pointsToWin (config pickleballGamePoint) = 11
  /\ exists s',
       Pickleball.scorePoint pickleballGamePoint Team1 = Ok s'
       /\ winner <$> sets s' !! 0%nat = Some (Some Team1).
Proof.
  split; [reflexivity|].
  destruct (default_points_per_game pickleballGamePoint Team1
              (Pickleball.createInitialSet 1)
              eq_refl eq_refl (or_introl eq_refl) eq_refl)
    as (Htarget & s' & Hrun & Hwin & _).
  split; [exact Htarget|].
  exists s'. split; [exact Hrun|].
  apply Hwin. simpl. lia.
Defined.

(** ** Undo *)

(** What [undoLastPoint] computes on a history that has events: the snapshot
    of its last event, whatever the state it is given. *)
Lemma lastEvent_snoc {G : Type} (events : list (ScoreEvent G)) e dflt :
  lastEvent (events ++ [e]) dflt = scoreSnapshot e.
Proof.
  unfold lastEvent. rewrite length_app. simpl.
  replace (length events + 1 - 1)%nat with (length events + 0)%nat by lia.
  by rewrite lookup_app_r, Nat.add_comm, Nat.add_sub by lia.
Qed.

Lemma tennis_undoLastPoint_snoc state events e :
  Tennis.undoLastPoint state (events ++ [e]) = scoreSnapshot e.
Proof.
  unfold Tennis.undoLastPoint. rewrite lastEvent_snoc.
  rewrite length_app. simpl.
  by destruct (Z.eqb_spec (Z.of_nat (length events + 1)) 0); [lia|].
Qed.

Lemma pickleball_undoLastPoint_snoc state events e :
  Pickleball.undoLastPoint state (events ++ [e]) = scoreSnapshot e.
Proof.
  unfold Pickleball.undoLastPoint. rewrite lastEvent_snoc.
  rewrite length_app. simpl.
  by destruct (Z.eqb_spec (Z.of_nat (length events + 1)) 0); [lia|].
Qed.

Lemma undoLastPoint_empty :
  (forall state, Tennis.undoLastPoint state [] = state)
  /\ (forall state, Pickleball.undoLastPoint state [] = state).
Proof. split; reflexivity. Qed.

(** The undo of the scorer page, for comparison. On a history that ends
    with [e], [useUndoPoint] settles as follows, by the answers of the
    store: a refused delete leaves the table as it is; an accepted one
    removes the rows with the id of [e], and then the call resolves to
    [null] when [e] was the only event, and otherwise goes on to the update
    of [match_scores] from the snapshot of the event before [e]. *)
Lemma useUndoPoint_snoc {G : Type} `{GamePoints G} deleteError updateError now
    (table : list (ScoreEvent G)) fid events e :
  useUndoPoint deleteError updateError now table fid (events ++ [e])
  = match deleteError with
    | Some err => (table, None, Rejected (StoreRefusal err))
    | None =>
      match last events with
      | None => (deleteScoreEvent (eventId e) table, None, Resolved None)
      | Some e' =>
        match matchScoresUpdate now (scoreSnapshot e') with
        | Throw f =>
            (deleteScoreEvent (eventId e) table, None, Rejected (Exception f))
        | Ok columns =>
          match updateError with
          | Some err =>
              (deleteScoreEvent (eventId e) table, None,
               Rejected (StoreRefusal err))
          | None =>
              (deleteScoreEvent (eventId e) table, Some (fid, columns),
               Resolved (Some (scoreSnapshot e')))
          end
        end
      end
    end.
Proof.
  unfold useUndoPoint. rewrite length_app. simpl length.
  destruct (Z.eqb_spec (Z.of_nat (length events + 1)) 0) as [?|_]; [lia|].
  replace (length events + 1 - 1)%nat with (length events + 0)%nat by lia.
  rewrite lookup_app_r by lia.
  replace (length events + 0 - length events)%nat with 0%nat by lia.
  cbn [lookup list_lookup].
  destruct deleteError as [err|]; [done|].
  destruct events as [|e' events _] using rev_ind; [done|].
  rewrite last_snoc, length_app. simpl length.
  destruct (Z.gtb_spec (Z.of_nat (length events + 1 + 1)) 1); [|lia].
  replace (length events + 1 + 1 - 2)%nat with (length events + 0)%nat by lia.
  rewrite lookup_app_l by (rewrite length_app; simpl; lia).
  rewrite lookup_app_r by lia.
  replace (length events + 0 - length events)%nat with 0%nat by lia.
  done.
Qed.

(** With two events or more, both calls accepted and a previous snapshot
    that has its current set, it resolves to the snapshot of the event
    before the last one; with one event and the delete accepted, to [null];
    on an empty history it throws, whatever the store would answer. *)
Lemma useUndoPoint_previous {G : Type} `{GamePoints G} now
    (table : list (ScoreEvent G)) fid events e1 e2 :
  is_Some (sets (scoreSnapshot e1) !! currentSetIndex (scoreSnapshot e1)) ->
  (useUndoPoint None None now table fid (events ++ [e1; e2])).2
  = Resolved (Some (scoreSnapshot e1)).
Proof.
  intros [cs Hcs].
  change (events ++ [e1; e2]) with (events ++ [e1] ++ [e2]).
  rewrite app_assoc, useUndoPoint_snoc, last_snoc.
  unfold matchScoresUpdate. by rewrite Hcs.
Qed.

Lemma useUndoPoint_single {G : Type} `{GamePoints G} updateError now
    (table : list (ScoreEvent G)) fid e :
  (useUndoPoint None updateError now table fid [e]).2 = Resolved None.
Proof. reflexivity. Qed.

Lemma useUndoPoint_empty {G : Type} `{GamePoints G} deleteError updateError
    now (table : list (ScoreEvent G)) fid :
  useUndoPoint deleteError updateError now table fid []
  = (table, None, Rejected (Exception NoEventsToUndo)).
Proof. reflexivity. Qed.

(** A point scored in a match that is not complete changes the state. *)
Lemma scoreRegularPoint_changes game t adv newGame :
  Tennis.scoreRegularPoint game t adv = (newGame, None) -> newGame <> game.
Proof.
  unfold Tennis.scoreRegularPoint. destruct game as [p1 p2].
  destruct t, p1, p2, adv; simpl; intros H; simplify_eq; done.
Qed.

Lemma replaceSet_same idx x (l : list SetState) cs :
  l !! idx = Some cs -> replaceSet idx x l = l -> x = cs.
Proof.
  intros Hcs Heq. apply (f_equal (fun l => l !! idx)) in Heq.
  unfold replaceSet in Heq.
  rewrite list_lookup_insert_eq in Heq by by eapply lookup_lt_Some.
  congruence.
Qed.

Lemma tennis_scorePoint_changes s t s' :
  isComplete s = false -> Tennis.scorePoint s t = Ok s' -> s' <> s.
Proof.
  intros Hc H Heq.
  pose proof (f_equal isComplete Heq) as E1.
  pose proof (f_equal currentSetIndex Heq) as E2.
  pose proof (f_equal sets Heq) as E3.
  pose proof (f_equal currentGame Heq) as E4.
  pose proof (f_equal servingTeam Heq) as E5.
  clear Heq.
  unfold Tennis.scorePoint in H. rewrite Hc in H.
  destruct (sets s !! currentSetIndex s) as [cs|] eqn:Hcs; [|done].
  destruct (isTiebreak cs) eqn:Htb.
  - unfold Tennis.scoreTiebreakPoint in H.
    destruct (tiebreakScore cs) as [sc|] eqn:Hsc; [|done].
    unfold mbind, result_bind in H.
    repeat (case_match; simplify_eq/=; try done); try congruence; try lia.
    apply (replaceSet_same _ _ _ _ Hcs) in E3.
    rewrite <- E3 in Hsc. simpl in Hsc.
    match goal with
    | t : Team |- _ => destruct t, sc; simpl in Hsc; simplify_eq; lia
    end.
  - destruct (Tennis.scoreRegularPoint (currentGame s) t
                (advantageScoring (config s))) as [newGame [gw|]] eqn:Hreg.
    + repeat (case_match; simplify_eq/=; try done); try congruence; try lia.
      * apply (replaceSet_same _ _ _ _ Hcs) in E3. by rewrite <- E3 in Htb.
      * by destruct (servingTeam s).
    + simplify_eq/=. by apply scoreRegularPoint_changes in Hreg.
Qed.

Lemma pickleball_scorePoint_changes s t s' :
  isComplete s = false -> Pickleball.scorePoint s t = Ok s' -> s' <> s.
Proof.
  intros Hc H Heq.
  pose proof (f_equal isComplete Heq) as E1.
  pose proof (f_equal currentSetIndex Heq) as E2.
  pose proof (f_equal currentGame Heq) as E4.
  clear Heq.
  unfold Pickleball.scorePoint in H. rewrite Hc in H.
  repeat (case_match; simplify_eq/=; try done); try congruence; try lia.
  all: match goal with
       | t : Team |- _ =>
           destruct t, (currentGame s); simpl in *; simplify_eq; lia
       end.
Qed.

(** Hence the undo of a point over the one-event history never gives back
    the state before the point, in either engine. *)
Lemma tennis_undo_never_restores s t s' e :
  isComplete s = false ->
  Tennis.scorePoint s t = Ok s' ->
  scoreSnapshot e = s' ->
  Tennis.undoLastPoint s' [e] = s' /\ Tennis.undoLastPoint s' [e] <> s.
Proof.
  intros Hc H He.
  assert (Hu : Tennis.undoLastPoint s' [e] = s')
    by (rewrite <- He at 2; apply (tennis_undoLastPoint_snoc s' [] e)).
  split; [exact Hu|]. rewrite Hu. by eapply tennis_scorePoint_changes.
Qed.

Lemma pickleball_undo_never_restores s t s' e :
  isComplete s = false ->
  Pickleball.scorePoint s t = Ok s' ->
  scoreSnapshot e = s' ->
  Pickleball.undoLastPoint s' [e] = s' /\ Pickleball.undoLastPoint s' [e] <> s.
Proof.
  intros Hc H He.
  assert (Hu : Pickleball.undoLastPoint s' [e] = s')
    by (rewrite <- He at 2; apply (pickleball_undoLastPoint_snoc s' [] e)).
  split; [exact Hu|]. rewrite Hu. by eapply pickleball_scorePoint_changes.
Qed.

(** C1. Round-trip, evaluated on the code: the specification states that
    [scorePoint] followed by [undoLastPoint] over the one-event history (the
    event carrying the state after the point) gives back the state before
    the point. Both engines give the state after the point instead: from the
    initial state, one point for team 1 and the undo leave the point
    scored. *)
Theorem undo_after_score_keeps_the_point :
  (Tennis.scorePoint tennisStart Team1 = Ok tennisAfterOne
   /\ Tennis.undoLastPoint tennisAfterOne
        [pointEvent "e1" 1 Team1 tennisAfterOne] = tennisAfterOne
   /\ tennisAfterOne <> tennisStart)
  /\ (Pickleball.scorePoint pickleballStart Team1 = Ok pickleballAfterOne
      /\ Pickleball.undoLastPoint pickleballAfterOne
           [pointEvent "e1" 1 Team1 pickleballAfterOne] = pickleballAfterOne
      /\ pickleballAfterOne <> pickleballStart).
Proof. repeat split; done. Qed.

(** C2. Undo contract, evaluated on the code: the specification states that
    undo over [N >= 1] events restores the snapshot of event [N-1], or the
    initial state when [N = 1]. [undoLastPoint] returns the snapshot of
    event [N] itself: over the two events of two points it returns the state
    after the second point, and over one event the state after that point.
    On the empty history it returns the given state, as stated. *)
Theorem undo_returns_last_snapshot :
  let e1 := pointEvent "e1" 1 Team1 tennisAfterOne in
  let e2 := pointEvent "e2" 2 Team1 tennisAfterTwo in
  Tennis.scorePoint tennisStart Team1 = Ok tennisAfterOne
  /\ Tennis.scorePoint tennisAfterOne Team1 = Ok tennisAfterTwo
  /\ Tennis.undoLastPoint tennisAfterTwo [e1; e2] = tennisAfterTwo
  /\ tennisAfterTwo <> tennisAfterOne
  /\ Tennis.undoLastPoint tennisAfterOne [e1] = tennisAfterOne
  /\ tennisAfterOne <> tennisStart
  /\ Tennis.undoLastPoint tennisAfterTwo [] = tennisAfterTwo.
Proof. repeat split; done. Qed.

(* ================================================================== *)
(** * Supporting facts for the further properties *)
(* ================================================================== *)

(** ** Steps of the engines *)

Lemma tennis_step_policy s t s' :
  Tennis.scorePoint s t = Ok s' ->
  config s' = config s /\ fixtureId s' = fixtureId s.
Proof. intros H. tennis_cases H. Qed.

Lemma pickleball_step_policy s t s' :
  Pickleball.scorePoint s t = Ok s' ->
  config s' = config s /\ fixtureId s' = fixtureId s.
Proof. intros H. pickleball_cases H. Qed.

Lemma tennis_step_history s t s' :
  Tennis.scorePoint s t = Ok s' ->
  (currentSetIndex s <= currentSetIndex s' <= currentSetIndex s + 1)%nat
  /\ (length (sets s) <= length (sets s'))%nat
  /\ forall i, (i < currentSetIndex s)%nat -> sets s' !! i = sets s !! i.
Proof.
  intros H. destruct (isComplete s) eqn:Hc.
  { unfold Tennis.scorePoint in H. rewrite Hc in H. simplify_eq.
    repeat split; auto; lia. }
  tennis_cases H; unfold replaceSet.
  all: repeat split; rewrite ?length_app, ?length_insert; try lia.
  all: intros i Hi; try done.
  all: try (rewrite list_lookup_insert_ne by lia; done).
  all: match goal with H : sets _ !! currentSetIndex _ = Some _ |- _ =>
         apply lookup_lt_Some in H end.
  all: rewrite lookup_app_l by (rewrite length_insert; lia).
  all: by rewrite list_lookup_insert_ne by lia.
Qed.

Lemma pickleball_step_history s t s' :
  Pickleball.scorePoint s t = Ok s' ->
  (currentSetIndex s <= currentSetIndex s' <= currentSetIndex s + 1)%nat
  /\ (length (sets s) <= length (sets s'))%nat
  /\ forall i, (i < currentSetIndex s)%nat -> sets s' !! i = sets s !! i.
Proof.
  intros H. destruct (isComplete s) eqn:Hc.
  { unfold Pickleball.scorePoint in H. rewrite Hc in H. simplify_eq.
    repeat split; auto; lia. }
  pickleball_cases H; unfold replaceSet.
  all: repeat split; rewrite ?length_app, ?length_insert; try lia.
  all: intros i Hi; try done.
  all: try (rewrite list_lookup_insert_ne by lia; done).
  all: match goal with H : sets _ !! currentSetIndex _ = Some _ |- _ =>
         apply lookup_lt_Some in H end.
  all: rewrite lookup_app_l by (rewrite length_insert; lia).
  all: by rewrite list_lookup_insert_ne by lia.
Qed.


(** ** A game of tennis *)




Lemma scoreRegularPoint_valid game t adv :
  validGame game -> validGame (fst (Tennis.scoreRegularPoint game t adv)).
Proof.
  unfold validGame, Tennis.scoreRegularPoint. destruct game as [p1 p2].
  destruct t, p1, p2, adv; simpl; intros [H1 H2]; split; intros H;
    try done; try (by apply H1); try (by apply H2).
Qed.

Lemma scoreRegularPoint_no_AD game t :
  team1Points game <> AD -> team2Points game <> AD ->
  team1Points (fst (Tennis.scoreRegularPoint game t false)) <> AD
  /\ team2Points (fst (Tennis.scoreRegularPoint game t false)) <> AD.
Proof.
  unfold Tennis.scoreRegularPoint. destruct game as [p1 p2].
  destruct t, p1, p2; simpl; intros H1 H2; split; done.
Qed.

(** ** The set *)

Lemma checkSetWon_iff set cfg t :
  Tennis.checkSetWon set cfg = Some t
  <-> isTiebreak set = false
      /\ gamesPerSet cfg <= gamesOf t set
      /\ 2 <= gamesOf t set - gamesOf (otherTeam t) set.
Proof.
  unfold Tennis.checkSetWon, gamesOf.
  destruct (isTiebreak set); [split; [done | intros [? _]; done]|].
  repeat match goal with
  | |- context [?a >=? ?b] => rewrite (Z.geb_leb a b)
  end.
  repeat match goal with
  | |- context [?a <=? ?b] => destruct (Z.leb_spec a b)
  | |- context [?a =? ?b] => destruct (Z.eqb_spec a b)
  end; simpl; destruct t; simpl; split; intros Hw; simplify_eq; try done; try lia.
Qed.


Lemma reachable_invariant_strong {G : Type} (E : ScoringEngine G)
    (P : MatchState G -> Prop) :
  (forall fid cfg srv, P (createInitialState E fid cfg srv)) ->
  (forall s t s', reachable E s -> P s -> scorePoint E s t = Ok s' -> P s') ->
  forall s, reachable E s -> P s.
Proof. intros Hinit Hstep s Hs. induction Hs; eauto. Qed.

(** The labels of a game on the states the engine reaches. *)
Lemma tennis_reachable_labels s :
  reachable tennisScorer s ->
  validGame (currentGame s)
  /\ (advantageScoring (config s) = false ->
      team1Points (currentGame s) <> AD /\ team2Points (currentGame s) <> AD).
Proof.
  revert s. apply (reachable_invariant tennisScorer).
  - intros fid cfg srv. split; [split; done|]. intros _. split; done.
  - intros s t s' [Hv Hn] H.
    destruct (isComplete s) eqn:Hc.
    { unfold scorePoint, tennisScorer, Tennis.scorePoint in H. rewrite Hc in H. by simplify_eq. }
    pose proof (scoreRegularPoint_valid (currentGame s) t (advantageScoring (config s)) Hv) as Hv'.
    assert (Hn' : advantageScoring (config s) = false ->
       team1Points (fst (Tennis.scoreRegularPoint (currentGame s) t (advantageScoring (config s)))) <> AD
       /\ team2Points (fst (Tennis.scoreRegularPoint (currentGame s) t (advantageScoring (config s)))) <> AD).
    { intros Ha. rewrite Ha. destruct (Hn Ha). by apply scoreRegularPoint_no_AD. }
    simpl in H. tennis_cases H.
    all: try (split; [split; done | intros _; split; done]).
    all: try (split; [done|]; done).
    all: match goal with H : Tennis.scoreRegularPoint _ _ _ = _ |- _ => rewrite H in Hv', Hn' end; simpl in *; try done.
Qed.


(** What a tiebreak point does to the set. *)
Lemma scoreTiebreakPoint_fields cs t cfg newSet w :
  Tennis.scoreTiebreakPoint cs t cfg = Ok (newSet, w) ->
  setNumber newSet = setNumber cs
  /\ isTiebreak newSet = isTiebreak cs
  /\ exists sc,
      tiebreakScore cs = Some sc
      /\ tiebreakScore newSet
         = Some (Tennis.withTally t (Tennis.tallyOf t sc + 1) sc)
      /\ match w with
         | None => winner newSet = winner cs
                   /\ team1Games newSet = team1Games cs
                   /\ team2Games newSet = team2Games cs
         | Some x => x = t /\ winner newSet = Some t
                   /\ gamesOf t newSet = gamesOf t cs + 1
                   /\ gamesOf (otherTeam t) newSet = gamesOf (otherTeam t) cs
                   /\ 2 <= Tennis.tallyOf t sc + 1 - Tennis.tallyOf (otherTeam t) sc
         end.
Proof.
  unfold Tennis.scoreTiebreakPoint. intros H.
  destruct (tiebreakScore cs) as [sc|]; [|done].
  match type of H with context [if ?c then _ else _] => destruct c eqn:Hwin end;
    simplify_eq/=; repeat split; exists sc; repeat split; try done.
  - destruct t; simpl; lia.
  - destruct t; simpl; lia.
  - apply andb_true_iff in Hwin as [_ Hwin]. rewrite Z.geb_leb in Hwin.
    apply Z.leb_le in Hwin. destruct t; simpl in *; lia.
Qed.


Lemma tennis_reachable_games s :
  reachable tennisScorer s ->
  Forall (fun st => 0 <= team1Games st /\ 0 <= team2Games st) (sets s)
  /\ (tiebreakAt (config s) <= 0 ->
      Forall (fun st => isTiebreak st = false) (sets s)).
Proof.
  revert s. apply (reachable_invariant tennisScorer).
  - intros fid cfg srv. split; [|intros _]; by apply Forall_singleton.
  - intros s t s' [Hg Hn] H.
    destruct (isComplete s) eqn:Hc.
    { unfold scorePoint, tennisScorer, Tennis.scorePoint in H. rewrite Hc in H. by simplify_eq. }
    simpl in H. unfold Tennis.scorePoint in H. rewrite Hc in H.
    destruct (sets s !! currentSetIndex s) as [cs|] eqn:Hcs; [|done].
    pose proof (Forall_lookup_1 _ _ _ _ Hg Hcs) as [Hg1 Hg2].
    destruct (isTiebreak cs) eqn:Htb.
    + unfold mbind, result_bind in H.
      destruct (Tennis.scoreTiebreakPoint cs t (config s)) as [[newSet w]|] eqn:Hr; [|done].
      apply scoreTiebreakPoint_fields in Hr as (_ & Htb' & sc & _ & _ & Hw).
      assert (Hnew : 0 <= team1Games newSet /\ 0 <= team2Games newSet).
      { destruct w as [x|].
        - destruct Hw as (-> & _ & Ha & Hb & _). destruct t; simpl in *; lia.
        - destruct Hw as (_ & -> & ->). done. }
      assert (Hno : tiebreakAt (config s) <= 0 -> False).
      { intros Htb0. pose proof (Forall_lookup_1 _ _ _ _ (Hn Htb0) Hcs). congruence. }
      repeat (case_match; simplify_eq/=); (split; [sets_goal | intros Htb0; by destruct Hno]).
    + destruct (Tennis.scoreRegularPoint _ _ _) as [newGame [gw|]]; simplify_eq/=; [|done].
      assert (Hnew : 0 <= team1Games (Tennis.addGame gw cs)
                     /\ 0 <= team2Games (Tennis.addGame gw cs)).
      { destruct gw; simpl; unfold oneIf; simpl; lia. }
      destruct (Tennis.shouldStartTiebreak (Tennis.addGame gw cs) (config s)) eqn:Hst.
      * simplify_eq/=. split; [sets_goal|]. intros Htb0. exfalso.
        unfold Tennis.shouldStartTiebreak in Hst.
        apply andb_true_iff in Hst as [Hst _]. apply andb_true_iff in Hst as [H1 H2].
        apply Z.eqb_eq in H1, H2. destruct gw; simpl in *; unfold oneIf in *; simpl in *; lia.
      * repeat (case_match; simplify_eq/=); (split; [sets_goal | intros Htb0; specialize (Hn Htb0); sets_goal]).
Qed.


(** ** The shape of the set list *)

Section SetList.
Context {G : Type}.
Implicit Types s : MatchState G.

Lemma setsInOrder_same s s' :
  setsInOrder s ->
  sets s' = sets s -> currentSetIndex s' = currentSetIndex s ->
  isComplete s' = isComplete s ->
  setsInOrder s'.
Proof.
  intros [H1 H2 H3] Hs Hi Hc. split; rewrite ?Hs, ?Hi, ?Hc; done.
Qed.

Lemma setsInOrder_replace s s' cs x :
  setsInOrder s ->
  sets s !! currentSetIndex s = Some cs ->
  setNumber x = setNumber cs ->
  sets s' = replaceSet (currentSetIndex s) x (sets s) ->
  currentSetIndex s' = currentSetIndex s ->
  (winner x = None <-> isComplete s' = false) ->
  setsInOrder s'.
Proof.
  intros [H1 H2 H3] Hcs Hn Hs Hi Hw. unfold replaceSet in Hs.
  pose proof (lookup_lt_Some _ _ _ Hcs) as Hlt.
  split; rewrite ?Hs, ?Hi.
  - intros i st Hst. destruct (decide (i = currentSetIndex s)) as [->|Hne].
    + rewrite list_lookup_insert_eq in Hst by done. simplify_eq.
      rewrite Hn. by apply H1.
    + rewrite list_lookup_insert_ne in Hst by done. by apply H1.
  - intros i st Hst Hlti. rewrite list_lookup_insert_ne in Hst by lia.
    by eapply H2.
  - intros st Hst. rewrite list_lookup_insert_eq in Hst by done. by simplify_eq.
Qed.

Lemma setsInOrder_next s s' cs x y :
  wellFormed s ->
  setsInOrder s ->
  sets s !! currentSetIndex s = Some cs ->
  setNumber x = setNumber cs -> winner x <> None ->
  setNumber y = Z.of_nat (currentSetIndex s) + 2 -> winner y = None ->
  sets s' = replaceSet (currentSetIndex s) x (sets s) ++ [y] ->
  currentSetIndex s' = (currentSetIndex s + 1)%nat ->
  isComplete s' = false ->
  setsInOrder s'.
Proof.
  intros [Hlen _] [H1 H2 H3] Hcs Hn Hwx Hny Hwy Hs Hi Hc. unfold replaceSet in Hs.
  pose proof (lookup_lt_Some _ _ _ Hcs) as Hlt.
  assert (Hlast : forall i st,
            (<[currentSetIndex s:=x]> (sets s) ++ [y]) !! i = Some st ->
            (i < currentSetIndex s)%nat /\ sets s !! i = Some st
            \/ i = currentSetIndex s /\ st = x
            \/ i = S (currentSetIndex s) /\ st = y).
  { intros i st Hst.
    destruct (decide (i < length (sets s))%nat) as [Hil|Hil].
    - rewrite lookup_app_l in Hst by (by rewrite length_insert).
      destruct (decide (i = currentSetIndex s)) as [->|Hne].
      + rewrite list_lookup_insert_eq in Hst by done. right; left. by simplify_eq.
      + rewrite list_lookup_insert_ne in Hst by done. left. split; [lia|done].
    - rewrite lookup_app_r in Hst by (rewrite length_insert; lia).
      rewrite length_insert in Hst.
      destruct (i - length (sets s))%nat as [|k] eqn:Hk; simpl in Hst; [|done].
      right; right. split; [lia|]. by simplify_eq. }
  split; rewrite ?Hs, ?Hi, ?Hc.
  - intros i st Hst. destruct (Hlast i st Hst) as [[? ?]|[[-> ->]|[-> ->]]].
    + by apply H1.
    + rewrite Hn. by apply H1.
    + rewrite Hny. lia.
  - intros i st Hst Hlti. destruct (Hlast i st Hst) as [[? ?]|[[-> ->]|[-> ->]]].
    + by eapply H2.
    + done.
    + lia.
  - intros st Hst. destruct (Hlast _ st Hst) as [[? ?]|[[? ->]|[_ ->]]]; try lia.
    done.
Qed.
End SetList.

Lemma tennis_reachable_setsInOrder s :
  reachable tennisScorer s -> setsInOrder s.
Proof.
  revert s. apply (reachable_invariant_strong tennisScorer).
  - intros fid cfg srv. split; simpl.
    + intros [|i] st Hst; simpl in Hst; by simplify_eq.
    + intros i st _ Hi. lia.
    + intros st Hst. by simplify_eq.
  - intros s t s' Hr Hin H. simpl in H.
    pose proof (tennis_reachable_wellFormed s Hr) as Hwf.
    destruct (isComplete s) eqn:Hc.
    { unfold Tennis.scorePoint in H. rewrite Hc in H. by simplify_eq. }
    unfold Tennis.scorePoint in H. rewrite Hc in H.
    destruct (sets s !! currentSetIndex s) as [cs|] eqn:Hcs; [|done].
    assert (Hwcs : winner cs = None) by by apply (so_current s Hin cs Hcs).
    destruct (isTiebreak cs) eqn:Htb.
    + unfold mbind, result_bind in H.
      destruct (Tennis.scoreTiebreakPoint cs t (config s)) as [[newSet w]|] eqn:Hr'; [|done].
      apply scoreTiebreakPoint_fields in Hr' as (Hnum & _ & sc & _ & _ & Hw).
      destruct w as [x|].
      * destruct Hw as (-> & Hwin & _).
        case_match; simplify_eq/=.
        -- eapply (setsInOrder_replace _ _ _ _ Hin Hcs); cycle 1;
             [reflexivity | reflexivity | simpl; rewrite ?Hwin; try done; by split ..].
        -- eapply (setsInOrder_next _ _ _ _ _ Hwf Hin Hcs); cycle 4;
             [reflexivity | reflexivity | reflexivity | simpl; try done ..].
           by rewrite Hwin.
      * destruct Hw as (Hwin & _). simplify_eq/=.
        eapply (setsInOrder_replace _ _ _ _ Hin Hcs); cycle 1;
          [reflexivity | reflexivity | simpl; rewrite ?Hwin, ?Hwcs; try done; by split ..].
    + destruct (Tennis.scoreRegularPoint _ _ _) as [newGame [gw|]]; simplify_eq/=.
      2: { by eapply (setsInOrder_same s). }
      repeat (case_match; simplify_eq/=).
      * eapply (setsInOrder_replace _ _ _ _ Hin Hcs); cycle 1;
          [reflexivity | reflexivity | simpl; rewrite ?Hwcs; try done; by split ..].
      * eapply (setsInOrder_replace _ _ _ _ Hin Hcs); cycle 1;
          [reflexivity | reflexivity | simpl; rewrite ?Hwcs; try done; by split ..].
      * eapply (setsInOrder_next _ _ _ _ _ Hwf Hin Hcs); cycle 4;
          [reflexivity | reflexivity | reflexivity | simpl; done ..].
      * eapply (setsInOrder_replace _ _ _ _ Hin Hcs); cycle 1;
          [reflexivity | reflexivity | simpl; rewrite ?Hwcs; try done; by split ..].
Qed.

Lemma pickleball_reachable_setsInOrder s :
  reachable pickleballScorer s -> setsInOrder s.
Proof.
  revert s. apply (reachable_invariant_strong pickleballScorer).
  - intros fid cfg srv. split; simpl.
    + intros [|i] st Hst; simpl in Hst; by simplify_eq.
    + intros i st _ Hi. lia.
    + intros st Hst. by simplify_eq.
  - intros s t s' Hr Hin H. simpl in H.
    pose proof (pickleball_reachable_wellFormed s Hr) as Hwf.
    destruct (isComplete s) eqn:Hc.
    { unfold Pickleball.scorePoint in H. rewrite Hc in H. by simplify_eq. }
    unfold Pickleball.scorePoint in H. rewrite Hc in H.
    repeat (case_match; simplify_eq/=).
    all: try (by eapply setsInOrder_same; [exact Hin|..]).
    all: match goal with
         | Hcs : sets _ !! currentSetIndex _ = Some _ |- _ =>
           first
             [ eapply (setsInOrder_replace _ _ _ _ Hin Hcs); cycle 1;
               [reflexivity | reflexivity | simpl; try done; by split ..]
             | eapply (setsInOrder_next _ _ _ _ _ Hwf Hin Hcs); cycle 4;
               [reflexivity | reflexivity | reflexivity | simpl; done ..] ]
         end.
Qed.


(** ** Sets won *)

Lemma setsWonBy_app t l1 l2 :
  setsWonBy t (l1 ++ l2) = setsWonBy t l1 + setsWonBy t l2.
Proof.
  unfold setsWonBy. rewrite List.filter_app, length_app. lia.
Qed.

Lemma setsWonBy_cons t x l :
  setsWonBy t (x :: l)
  = oneIf (bool_decide (winner x = Some t)) + setsWonBy t l.
Proof.
  unfold setsWonBy. simpl. destruct (bool_decide (winner x = Some t)); simpl; lia.
Qed.

Lemma setsWonBy_replace t idx x l cs :
  l !! idx = Some cs ->
  setsWonBy t (replaceSet idx x l)
  = setsWonBy t l - oneIf (bool_decide (winner cs = Some t))
    + oneIf (bool_decide (winner x = Some t)).
Proof.
  intros Hcs. unfold replaceSet.
  rewrite insert_take_drop by by eapply lookup_lt_Some.
  rewrite <- (take_drop_middle l idx cs Hcs) at 3.
  rewrite !setsWonBy_app, !setsWonBy_cons. lia.
Qed.

Lemma setsWonBy_initial t n : setsWonBy t [Tennis.createInitialSet n] = 0.
Proof. reflexivity. Qed.

Lemma setsWonBy_nonneg t l : 0 <= setsWonBy t l.
Proof. unfold setsWonBy. lia. Qed.


Lemma tennis_step_setsTally s t s' :
  reachable tennisScorer s ->
  setsTally s -> Tennis.scorePoint s t = Ok s' -> setsTally s'.
Proof.
  intros Hr Hin H.
  pose proof (tennis_reachable_setsInOrder s Hr) as Hord.
  destruct (isComplete s) eqn:Hc.
  { unfold Tennis.scorePoint in H. rewrite Hc in H. by simplify_eq. }
  unfold setsTally in Hin. rewrite Hc in Hin. destruct Hin as [Hlt1 Hlt2].
  unfold Tennis.scorePoint in H. rewrite Hc in H.
  destruct (sets s !! currentSetIndex s) as [cs|] eqn:Hcs; [|done].
  assert (Hwcs : winner cs = None) by by apply (so_current s Hord cs Hcs).
  destruct (isTiebreak cs) eqn:Htb.
  - unfold mbind, result_bind in H.
    destruct (Tennis.scoreTiebreakPoint cs t (config s)) as [[newSet w]|] eqn:Hr'; [|done].
    apply scoreTiebreakPoint_fields in Hr' as (_ & _ & sc & _ & _ & Hw).
    destruct w as [x|].
    + destruct Hw as (-> & Hwin & _).
      match type of H with context [if ?c then _ else _] => destruct c eqn:Hm end;
        simplify_eq/=; (unfold setsTally; simpl;
      rewrite ?setsWonBy_app, ?(setsWonBy_replace _ _ _ _ _ Hcs); simpl;
      rewrite ?Hwcs, ?setsWonBy_initial; simpl); rewrite ?Hwin.
      * exists t. split; [done|]. rewrite !(setsWonBy_replace _ _ _ _ _ Hcs), Hwcs, Hwin.
        apply orb_true_iff in Hm. destruct t; simpl in *; unfold oneIf in *; simpl in *;
          destruct Hm as [Hm|Hm]; apply Z.eqb_eq in Hm; lia.
      * apply orb_false_iff in Hm as [Hm1 Hm2]. apply Z.eqb_neq in Hm1, Hm2.
        destruct t; simpl in *; unfold oneIf in *; simpl in *; lia.
    + destruct Hw as (Hwin & _). simplify_eq/=. (unfold setsTally; simpl;
      rewrite ?setsWonBy_app, ?(setsWonBy_replace _ _ _ _ _ Hcs); simpl;
      rewrite ?Hwcs, ?setsWonBy_initial; simpl).
      rewrite Hwin, Hwcs. simpl. lia.
  - destruct (Tennis.scoreRegularPoint _ _ _) as [newGame [gw|]]; simplify_eq/=.
    2: { unfold setsTally. simpl. by split. }
    destruct (Tennis.shouldStartTiebreak _ _).
    { simplify_eq/=. (unfold setsTally; simpl;
      rewrite ?setsWonBy_app, ?(setsWonBy_replace _ _ _ _ _ Hcs); simpl;
      rewrite ?Hwcs, ?setsWonBy_initial; simpl). simpl. lia. }
    destruct (Tennis.checkSetWon _ _) as [w|].
    2: { simplify_eq/=. (unfold setsTally; simpl;
      rewrite ?setsWonBy_app, ?(setsWonBy_replace _ _ _ _ _ Hcs); simpl;
      rewrite ?Hwcs, ?setsWonBy_initial; simpl). simpl. lia. }
    match type of H with context [if ?c then _ else _] => destruct c eqn:Hm end;
      simplify_eq/=; (unfold setsTally; simpl;
      rewrite ?setsWonBy_app, ?(setsWonBy_replace _ _ _ _ _ Hcs); simpl;
      rewrite ?Hwcs, ?setsWonBy_initial; simpl).
    + exists w. split; [done|]. rewrite !(setsWonBy_replace _ _ _ _ _ Hcs), Hwcs. simpl.
      apply orb_true_iff in Hm. destruct w; simpl in *; unfold oneIf in *; simpl in *;
        destruct Hm as [Hm|Hm]; apply Z.eqb_eq in Hm; lia.
    + apply orb_false_iff in Hm as [Hm1 Hm2]. apply Z.eqb_neq in Hm1, Hm2.
      destruct w; simpl in *; unfold oneIf in *; simpl in *; lia.
Qed.


Lemma pickleball_step_setsTally s t s' :
  reachable pickleballScorer s ->
  setsTally s -> Pickleball.scorePoint s t = Ok s' -> setsTally s'.
Proof.
  intros Hr Hin H.
  pose proof (pickleball_reachable_setsInOrder s Hr) as Hord.
  destruct (isComplete s) eqn:Hc.
  { unfold Pickleball.scorePoint in H. rewrite Hc in H. by simplify_eq. }
  unfold setsTally in Hin. rewrite Hc in Hin. destruct Hin as [Hlt1 Hlt2].
  unfold Pickleball.scorePoint in H. rewrite Hc in H.
  match type of H with context [if ?c then _ else _] => destruct c end.
  { destruct (serverNumber (currentGame s)); simplify_eq/=; unfold setsTally; simpl; by split. }
  match type of H with context [if ?c then _ else _] => destruct c end.
  2: { simplify_eq/=. unfold setsTally; simpl; by split. }
  destruct (sets s !! currentSetIndex s) as [cs|] eqn:Hcs; [|done].
  assert (Hwcs : winner cs = None) by by apply (so_current s Hord cs Hcs).
  match type of H with context [if ?c then _ else _] => destruct c eqn:Hm end;
    simplify_eq/=; (unfold setsTally; simpl;
      rewrite ?setsWonBy_app, ?(setsWonBy_replace _ _ _ _ _ Hcs); simpl;
      rewrite ?Hwcs, ?setsWonBy_initial; simpl).
  - exists t. split; [done|]. rewrite !(setsWonBy_replace _ _ _ _ _ Hcs), Hwcs. simpl.
    apply orb_true_iff in Hm. destruct t; simpl in *; unfold oneIf in *; simpl in *;
      destruct Hm as [Hm|Hm]; apply Z.eqb_eq in Hm; lia.
  - apply orb_false_iff in Hm as [Hm1 Hm2]. apply Z.eqb_neq in Hm1, Hm2.
    destruct t; simpl in *; unfold oneIf in *; simpl in *; lia.
Qed.

Lemma tennis_reachable_setsTally s :
  reachable tennisScorer s -> 1 <= setsToWin (config s) -> setsTally s.
Proof.
  revert s. apply (reachable_invariant_strong tennisScorer
                     (fun s => 1 <= setsToWin (config s) -> setsTally s)).
  - intros fid cfg srv Hcfg. unfold setsTally. simpl in *.
    change (setsWonBy Team1 [Tennis.createInitialSet 1]) with 0.
    change (setsWonBy Team2 [Tennis.createInitialSet 1]) with 0. lia.
  - intros s t s' Hr Hin H Hcfg. simpl in H.
    destruct (tennis_step_policy s t s' H) as [Hcf _]. rewrite Hcf in Hcfg.
    by eapply tennis_step_setsTally; [| apply Hin |].
Qed.

Lemma pickleball_reachable_setsTally s :
  reachable pickleballScorer s -> 1 <= setsToWin (config s) -> setsTally s.
Proof.
  revert s. apply (reachable_invariant_strong pickleballScorer
                     (fun s => 1 <= setsToWin (config s) -> setsTally s)).
  - intros fid cfg srv Hcfg. unfold setsTally. simpl in *.
    change (setsWonBy Team1 [Pickleball.createInitialSet 1]) with 0.
    change (setsWonBy Team2 [Pickleball.createInitialSet 1]) with 0. lia.
  - intros s t s' Hr Hin H Hcfg. simpl in H.
    destruct (pickleball_step_policy s t s' H) as [Hcf _]. rewrite Hcf in Hcfg.
    by eapply pickleball_step_setsTally; [| apply Hin |].
Qed.

(** ** The tiebreak and the game *)

(** During a tiebreak the game is left at its initial labels. *)
Lemma tennis_reachable_tiebreak_game s :
  reachable tennisScorer s ->
  forall cs, sets s !! currentSetIndex s = Some cs -> isTiebreak cs = true ->
  currentGame s = Tennis.createInitialGame.
Proof.
  revert s. apply (reachable_invariant_strong tennisScorer
    (fun s => forall cs, sets s !! currentSetIndex s = Some cs ->
                isTiebreak cs = true ->
                currentGame s = Tennis.createInitialGame)).
  - intros fid cfg srv cs Hcs Htb. done.
  - intros s t s' Hr Hin H. simpl in H.
    pose proof (tennis_reachable_wellFormed s Hr) as [Hlen _].
    destruct (isComplete s) eqn:Hc.
    { unfold Tennis.scorePoint in H. rewrite Hc in H. by simplify_eq. }
    unfold Tennis.scorePoint in H. rewrite Hc in H.
    destruct (sets s !! currentSetIndex s) as [cs|] eqn:Hcs; [|done].
    pose proof (lookup_lt_Some _ _ _ Hcs) as Hlt.
    specialize (Hin cs eq_refl).
    destruct (isTiebreak cs) eqn:Htb.
    + unfold mbind, result_bind in H.
      destruct (Tennis.scoreTiebreakPoint cs t (config s)) as [[newSet w]|]; [|done].
      repeat (case_match; simplify_eq/=); intros cs' Hcs' Htb'; auto.
    + destruct (Tennis.scoreRegularPoint _ _ _) as [newGame [gw|]]; simplify_eq/=.
      2: { intros cs' Hcs' Htb'. congruence. }
      repeat (case_match; simplify_eq/=); intros cs' Hcs' Htb'; try done.
      all: unfold replaceSet in Hcs'; rewrite list_lookup_insert_eq in Hcs' by done;
        simplify_eq/=; congruence.
Qed.


(** ** Pickleball games and sets *)

Lemma pickleball_reachable_oneGameSet s :
  reachable pickleballScorer s -> Forall oneGameSet (sets s).
Proof.
  revert s. apply (reachable_invariant_strong pickleballScorer).
  - intros fid cfg srv. apply Forall_singleton. by repeat split.
  - intros s t s' Hr Hin H. simpl in H.
    pose proof (pickleball_reachable_setsInOrder s Hr) as Hord.
    destruct (isComplete s) eqn:Hc.
    { unfold Pickleball.scorePoint in H. rewrite Hc in H. by simplify_eq. }
    unfold Pickleball.scorePoint in H. rewrite Hc in H.
    repeat (case_match; simplify_eq/=); try done.
    all: match goal with
         | Hcs : sets _ !! currentSetIndex _ = Some ?cs |- _ =>
           pose proof (Forall_lookup_1 _ _ _ _ Hin Hcs) as (Ha & Hb & Hg);
           assert (Hwcs : winner cs = None) by (by apply (so_current _ Hord cs Hcs));
           rewrite Hwcs in Hg; destruct Hg as [Hg1 Hg2]
         end.
    all: sets_goal.
    all: try (by repeat split).
    all: repeat split; try done; simpl;
      match goal with t : Team |- _ => destruct t; simpl; unfold oneIf; simpl; lia end.
Qed.

Lemma pickleball_reachable_tally s :
  reachable pickleballScorer s ->
  isComplete s = false ->
  forall t, ~ winningTally (config s) (currentGame s) t.
Proof.
  revert s. apply (reachable_invariant pickleballScorer
    (fun s => isComplete s = false ->
              forall t, ~ winningTally (config s) (currentGame s) t)).
  - intros fid cfg srv _ t [_ H]. simpl in H.
    destruct (winByTwo cfg), t; simpl in H; lia.
  - intros s t s' Hin H Hc'. simpl in H.
    destruct (isComplete s) eqn:Hc.
    { unfold Pickleball.scorePoint in H. rewrite Hc in H. simplify_eq. congruence. }
    specialize (Hin eq_refl).
    unfold Pickleball.scorePoint in H. rewrite Hc in H.
    match type of H with context [if ?c then _ else _] => destruct c end.
    { destruct (serverNumber (currentGame s)); simplify_eq/=; intros u Hu; by apply (Hin u). }
    match type of H with context [if ?c then _ else _] => destruct c eqn:Hwin end.
    { destruct (sets s !! currentSetIndex s); [|done].
      match type of H with context [if ?c then _ else _] => destruct c end;
        simplify_eq/=.
      intros u [_ Hu]. simpl in Hu.
      destruct (winByTwo (config s)), u; simpl in Hu; lia. }
    simplify_eq/=. intros u [Hu1 Hu2].
    destruct (decide (u = t)) as [->|Hne].
    + (* the side that scored: the test of the engine failed *)
      apply andb_false_iff in Hwin.
      assert (Hp : Pickleball.pointsOf t
                (Pickleball.withPoints t (Pickleball.pointsOf t (currentGame s) + 1) (currentGame s))
              = Pickleball.pointsOf t (currentGame s) + 1) by by destruct t.
      assert (Ho : Pickleball.pointsOf (otherTeam t)
                (Pickleball.withPoints t (Pickleball.pointsOf t (currentGame s) + 1) (currentGame s))
              = Pickleball.pointsOf (otherTeam t) (currentGame s)) by by destruct t.
      rewrite Hp in Hu1. rewrite Hp, Ho in Hu2.
      destruct Hwin as [Hwin|Hwin].
      * rewrite Z.geb_leb in Hwin. apply Z.leb_gt in Hwin. lia.
      * destruct (winByTwo (config s)).
        -- rewrite Z.geb_leb in Hwin. apply Z.leb_gt in Hwin. lia.
        -- rewrite Z.gtb_ltb in Hwin. apply Z.ltb_ge in Hwin. lia.
    + (* the other side: its lead only shrank *)
      apply (Hin u). split.
      * destruct u, t; simpl in *; try done.
      * destruct (winByTwo (config s)); destruct u, t; simpl in *; try done; lia.
Qed.

Lemma pickleball_reachable_rally_server s :
  reachable pickleballScorer s ->
  rallyScoring (config s) = true ->
  serverNumber (currentGame s) = Server1.
Proof.
  revert s. apply (reachable_invariant pickleballScorer
    (fun s => rallyScoring (config s) = true ->
              serverNumber (currentGame s) = Server1)).
  - done.
  - intros s t s' Hin H. simpl in H.
    destruct (pickleball_step_policy s t s' H) as [Hcf _]. rewrite Hcf.
    intros Hr. specialize (Hin Hr).
    destruct (isComplete s) eqn:Hc.
    { unfold Pickleball.scorePoint in H. rewrite Hc in H. by simplify_eq. }
    unfold Pickleball.scorePoint in H. rewrite Hc, Hr in H. simpl in H.
    repeat (case_match; simplify_eq/=); try done.
    all: match goal with t : Team |- _ => by destruct t end.
Qed.


(** ** Steps *)

Lemma tennis_regular_point s t s' cs :
  Tennis.scorePoint s t = Ok s' ->
  isComplete s = false ->
  sets s !! currentSetIndex s = Some cs -> isTiebreak cs = false ->
  gameCompletes s t = false ->
  servingTeam s' = servingTeam s
  /\ sets s' = sets s
  /\ currentSetIndex s' = currentSetIndex s
  /\ isComplete s' = false
  /\ currentGame s'
     = fst (Tennis.scoreRegularPoint (currentGame s) t (advantageScoring (config s))).
Proof.
  intros H Hc Hcs Htb Hg. unfold gameCompletes in Hg.
  unfold Tennis.scorePoint in H. rewrite Hc, Hcs, Htb in *.
  destruct (Tennis.scoreRegularPoint _ _ _) as [newGame [gw|]]; [done|].
  by simplify_eq/=.
Qed.

Lemma pickleball_rally_point s t s' cs :
  Pickleball.scorePoint s t = Ok s' ->
  isComplete s = false ->
  rallyScoring (config s) = true ->
  sets s !! currentSetIndex s = Some cs ->
  (sets s' = sets s
   /\ Pickleball.pointsOf t (currentGame s') = Pickleball.pointsOf t (currentGame s) + 1
   /\ Pickleball.pointsOf (otherTeam t) (currentGame s')
      = Pickleball.pointsOf (otherTeam t) (currentGame s)
   /\ servingTeam s' = t)
  \/ (winner <$> sets s' !! currentSetIndex s = Some (Some t)).
Proof.
  intros H Hc Hr Hcs. pose proof (lookup_lt_Some _ _ _ Hcs) as Hlt.
  unfold Pickleball.scorePoint in H. rewrite Hc, Hr, Hcs in H. simpl in H.
  match type of H with context [if ?c then _ else _] => destruct c end.
  - right.
    match type of H with context [if ?c then _ else _] => destruct c end;
      simplify_eq/=; unfold replaceSet.
    + by rewrite list_lookup_insert_eq.
    + rewrite lookup_app_l by (by rewrite length_insert).
      by rewrite list_lookup_insert_eq.
  - left. simplify_eq/=. by destruct t.
Qed.


(** ** The event log *)



(** A state that an engine reaches has its current set, so the update of
    [match_scores] can be built from it. *)
Lemma wellFormed_matchScoresUpdate {G : Type} `{GamePoints G} now
    (s : MatchState G) :
  wellFormed s -> exists columns, matchScoresUpdate now s = Ok columns.
Proof.
  intros [Hlen _]. unfold matchScoresUpdate.
  destruct (lookup_lt_is_Some_2 (sets s) (currentSetIndex s)) as [cs ->];
    [lia | eauto].
Qed.

Lemma reachable_matchScoresUpdate now :
  (forall s, reachable tennisScorer s ->
     exists columns, matchScoresUpdate now s = Ok columns)
  /\ (forall s, reachable pickleballScorer s ->
        exists columns, matchScoresUpdate now s = Ok columns).
Proof.
  split; intros s Hs; apply wellFormed_matchScoresUpdate.
  - by apply tennis_reachable_wellFormed.
  - by apply pickleball_reachable_wellFormed.
Qed.





Lemma checkSetWon_None set cfg :
  Tennis.checkSetWon set cfg = None ->
  isTiebreak set = false ->
  forall t, ~ (gamesPerSet cfg <= gamesOf t set
               /\ 2 <= gamesOf t set - gamesOf (otherTeam t) set).
Proof.
  intros Hn Htb t Hw.
  assert (Tennis.checkSetWon set cfg = Some t) by (apply checkSetWon_iff; tauto).
  congruence.
Qed.

Lemma setScore_initial cfg n :
  standardTiebreak cfg -> setScore cfg (Tennis.createInitialSet n).
Proof.
  intros (H1 & H2 & H3). unfold setScore. simpl. repeat split; try lia.
  destruct (Tennis.checkSetWon _ _) as [w|] eqn:Hw; [|done].
  apply checkSetWon_iff in Hw as (_ & _ & Hw). destruct w; simpl in Hw; lia.
Qed.


Lemma tennis_reachable_setScore s :
  reachable tennisScorer s ->
  standardTiebreak (config s) -> Forall (setScore (config s)) (sets s).
Proof.
  revert s. apply (reachable_invariant_strong tennisScorer
    (fun s => standardTiebreak (config s) -> Forall (setScore (config s)) (sets s))).
  - intros fid cfg srv Hcfg. apply Forall_singleton. by apply setScore_initial.
  - intros s t s' Hr Hin H. simpl in H.
    destruct (tennis_step_policy s t s' H) as [Hcf _]. rewrite Hcf.
    intros Hcfg. specialize (Hin Hcfg).
    pose proof (tennis_reachable_setsInOrder s Hr) as Hord.
    destruct (isComplete s) eqn:Hc.
    { unfold Tennis.scorePoint in H. rewrite Hc in H. by simplify_eq. }
    unfold Tennis.scorePoint in H. rewrite Hc in H.
    destruct (sets s !! currentSetIndex s) as [cs|] eqn:Hcs; [|done].
    assert (Hwcs : winner cs = None) by by apply (so_current s Hord cs Hcs).
    pose proof (Forall_lookup_1 _ _ _ _ Hin Hcs) as Hsc.
    unfold setScore in Hsc. rewrite Hwcs in Hsc.
    pose proof Hcfg as (Hc1 & Hc2 & Hc3).
    destruct (isTiebreak cs) eqn:Htb.
    + unfold mbind, result_bind in H. destruct Hsc as [Ha Hb].
      destruct (Tennis.scoreTiebreakPoint cs t (config s)) as [[newSet w]|] eqn:Hr'; [|done].
      apply scoreTiebreakPoint_fields in Hr' as (_ & Htb' & sc & _ & _ & Hw).
      assert (Hnew : setScore (config s) newSet).
      { unfold setScore. rewrite Htb', Htb. destruct w as [x|].
        - destruct Hw as (-> & -> & Hg1 & Hg2 & _). rewrite Hg1, Hg2.
          destruct t; simpl; lia.
        - destruct Hw as (-> & -> & ->). by rewrite Hwcs. }
      repeat (case_match; simplify_eq); cbn [sets config]; sets_split;
        first [exact Hnew | exact (setScore_initial _ _ Hcfg)].
    + destruct Hsc as (Ha & Hb & Hnt & Hnw).
      destruct (Tennis.scoreRegularPoint _ _ _) as [newGame [gw|]]; simplify_eq/=; [|done].
      destruct (Tennis.shouldStartTiebreak (Tennis.addGame gw cs) (config s)) eqn:Hst.
      * simplify_eq/=. sets_split. unfold setScore. simpl. rewrite Hwcs.
        unfold Tennis.shouldStartTiebreak in Hst.
        apply andb_true_iff in Hst as [Hst _]. apply andb_true_iff in Hst as [H1 H2].
        apply Z.eqb_eq in H1, H2. simpl in H1, H2. done.
      * assert (Hst' : ~ (team1Games (Tennis.addGame gw cs) = tiebreakAt (config s)
                          /\ team2Games (Tennis.addGame gw cs) = tiebreakAt (config s))).
        { intros [H1 H2]. unfold Tennis.shouldStartTiebreak in Hst.
          rewrite H1, H2, !Z.eqb_refl in Hst. simpl in Hst. by rewrite Htb in Hst. }
        destruct (Tennis.checkSetWon (Tennis.addGame gw cs) (config s)) as [w|] eqn:Hw.
        -- apply checkSetWon_iff in Hw as (_ & Hw1 & Hw2).
           assert (Hfin : setScore (config s)
                     {| setNumber := setNumber cs;
                        team1Games := team1Games cs + oneIf (bool_decide (gw = Team1));
                        team2Games := team2Games cs + oneIf (bool_decide (gw = Team2));
                        isTiebreak := isTiebreak cs;
                        tiebreakScore := tiebreakScore cs;
                        winner := Some w |}).
           { unfold setScore. simpl. rewrite Htb.
             destruct gw, w; simpl in *; unfold oneIf in *; simpl in *; lia. }
           repeat (case_match; simplify_eq); cbn [sets config]; sets_split;
             first [exact Hfin | exact (setScore_initial _ _ Hcfg)].
        -- simplify_eq/=. sets_split. unfold setScore. simpl. rewrite Hwcs, Htb.
           pose proof (checkSetWon_None _ _ Hw Htb gw) as Hnotwon.
           simpl in Hst'.
           repeat split; try done;
             destruct gw; simpl in *; unfold oneIf in *; simpl in *; try lia.
Qed.



Lemma scoreTiebreakPoint_tiebreakTally cfg cs t newSet w :
  tiebreakTally cfg cs -> winner cs = None -> isTiebreak cs = true ->
  Tennis.scoreTiebreakPoint cs t cfg = Ok (newSet, w) ->
  tiebreakTally cfg newSet.
Proof.
  intros Hin Hwcs Htb H. destruct (Hin Htb) as (sc & Hsc & H1 & H2 & Hno).
  rewrite Hwcs in Hno.
  unfold Tennis.scoreTiebreakPoint in H. rewrite Hsc in H.
  assert (Hmine : Tennis.tallyOf t
            (Tennis.withTally t (Tennis.tallyOf t sc + 1) sc) = Tennis.tallyOf t sc + 1)
    by by destruct t.
  assert (Htheirs : Tennis.tallyOf (otherTeam t)
            (Tennis.withTally t (Tennis.tallyOf t sc + 1) sc) = Tennis.tallyOf (otherTeam t) sc)
    by by destruct t.
  rewrite Hmine, Htheirs in H.
  match type of H with context [if ?c then _ else _] => destruct c eqn:Hwin end;
    simplify_eq; intros _; eexists; (split; [reflexivity|]); cbn [winner].
  - apply andb_true_iff in Hwin as [Hw1 Hw2]. rewrite Z.geb_leb in Hw1, Hw2.
    apply Z.leb_le in Hw1, Hw2. rewrite Hmine, Htheirs.
    repeat split; try (destruct t; simpl; lia); done.
  - rewrite Hwcs. repeat split; try (destruct t; simpl; lia).
    intros u [Hu1 Hu2]. change (Tennis.tiebreakTarget _ cfg) with (Tennis.tiebreakTarget cs cfg) in Hu1.
    destruct (decide (u = t)) as [->|Hne].
    + rewrite Hmine in Hu1. rewrite Hmine, Htheirs in Hu2.
      apply andb_false_iff in Hwin. rewrite !Z.geb_leb in Hwin.
      destruct Hwin as [Hwin|Hwin]; apply Z.leb_gt in Hwin; lia.
    + apply (Hno u). destruct u, t; simpl in *; try done; lia.
Qed.

Lemma tennis_reachable_tiebreakTally s :
  reachable tennisScorer s -> Forall (tiebreakTally (config s)) (sets s).
Proof.
  revert s. apply (reachable_invariant_strong tennisScorer
    (fun s => Forall (tiebreakTally (config s)) (sets s))).
  - intros fid cfg srv. apply Forall_singleton. intros Htb. done.
  - intros s t s' Hr Hin H. simpl in H.
    destruct (tennis_step_policy s t s' H) as [Hcf _]. rewrite Hcf.
    pose proof (tennis_reachable_setsInOrder s Hr) as Hord.
    destruct (isComplete s) eqn:Hc.
    { unfold Tennis.scorePoint in H. rewrite Hc in H. by simplify_eq. }
    unfold Tennis.scorePoint in H. rewrite Hc in H.
    destruct (sets s !! currentSetIndex s) as [cs|] eqn:Hcs; [|done].
    assert (Hwcs : winner cs = None) by by apply (so_current s Hord cs Hcs).
    pose proof (Forall_lookup_1 _ _ _ _ Hin Hcs) as Hsc.
    assert (Hinit : forall n, tiebreakTally (config s) (Tennis.createInitialSet n))
      by (intros n Hn; done).
    destruct (isTiebreak cs) eqn:Htb.
    + unfold mbind, result_bind in H.
      destruct (Tennis.scoreTiebreakPoint cs t (config s)) as [[newSet w]|] eqn:Hr'; [|done].
      pose proof (scoreTiebreakPoint_tiebreakTally _ _ _ _ _ Hsc Hwcs Htb Hr') as Hnew.
      repeat (case_match; simplify_eq); cbn [sets config]; sets_split;
        first [exact Hnew | apply Hinit].
    + destruct (Tennis.scoreRegularPoint _ _ _) as [newGame [gw|]]; simplify_eq/=; [|done].
      repeat (case_match; simplify_eq); cbn [sets config]; sets_split;
        try apply Hinit.
      all: try (intros Hx; cbn in Hx; congruence).
      intros _. eexists. split; [reflexivity|]. cbn. rewrite Hwcs.
      repeat split; try lia. intros u [_ Hu]. destruct u; simpl in Hu; lia.
Qed.


(** ** Deuce *)

Lemma deuce_runs pts : forall g w,
  (playPoints deuce true pts = (g, Some w) ->
     exists pre post, pts = pre ++ [w; w] ++ post)
  /\ (forall t, playPoints (Tennis.withPoints t AD deuce) true pts = (g, Some w) ->
        (t = w /\ exists post, pts = w :: post)
        \/ exists pre post, pts = pre ++ [w; w] ++ post).
Proof.
  induction pts as [|u pts IH]; intros g w; split.
  - done.
  - intros t H. by destruct t.
  - intros H. simpl in H.
    replace (Tennis.scoreRegularPoint deuce u true)
      with (Tennis.withPoints u AD deuce, @None Team) in H by by destruct u.
    destruct (proj2 (IH g w) u H) as [[-> [post ->]]|(pre & post & ->)].
    + by exists [], post.
    + by exists (u :: pre), post.
  - intros t H. simpl in H. destruct (decide (u = t)) as [->|Hne].
    + replace (Tennis.scoreRegularPoint (Tennis.withPoints t AD deuce) t true)
        with (Tennis.createInitialGame, Some t) in H by by destruct t.
      simplify_eq. left. split; [done|]. by exists pts.
    + replace (Tennis.scoreRegularPoint (Tennis.withPoints t AD deuce) u true)
        with (deuce, @None Team) in H by by destruct t, u.
      destruct (proj1 (IH g w) H) as (pre & post & ->).
      right. by exists (u :: pre), post.
Qed.

(** ** Sets won *)

Lemma setsWonBy_all_won l :
  Forall (fun st => winner st <> None) l ->
  setsWonBy Team1 l + setsWonBy Team2 l = Z.of_nat (length l).
Proof.
  induction 1 as [|st l Hst _ IH]; [done|].
  rewrite !setsWonBy_cons. simpl length.
  destruct (winner st) as [[]|]; [| |done]; simpl; unfold oneIf; simpl; lia.
Qed.

Lemma sets_won_sum {G : Type} (s : MatchState G) :
  wellFormed s -> setsInOrder s ->
  setsWonBy Team1 (sets s) + setsWonBy Team2 (sets s)
  = Z.of_nat (currentSetIndex s) + oneIf (isComplete s).
Proof.
  intros [Hlen _] [_ Hfin Hcur].
  destruct (sets s !! currentSetIndex s) as [cs|] eqn:Hcs.
  2: { apply lookup_ge_None in Hcs. lia. }
  rewrite <- (take_drop_middle (sets s) (currentSetIndex s) cs Hcs).
  rewrite (drop_ge (sets s) (S (currentSetIndex s))) by lia.
  rewrite !setsWonBy_app, !setsWonBy_cons.
  assert (Hpre : setsWonBy Team1 (take (currentSetIndex s) (sets s))
                 + setsWonBy Team2 (take (currentSetIndex s) (sets s))
                 = Z.of_nat (currentSetIndex s)).
  { rewrite setsWonBy_all_won.
    - rewrite length_take. lia.
    - apply Forall_lookup_2. intros i st Hst.
      pose proof (lookup_lt_Some _ _ _ Hst) as Hi. rewrite length_take in Hi.
      rewrite lookup_take_lt in Hst by lia. eapply Hfin; [exact Hst | lia]. }
  specialize (Hcur cs eq_refl).
  change (setsWonBy Team1 []) with 0. change (setsWonBy Team2 []) with 0.
  destruct (isComplete s); destruct (winner cs) as [[]|] eqn:Hw; simpl; unfold oneIf; simpl.
  all: try lia.
  all: try (destruct Hcur as [H1 H2]; try (specialize (H1 eq_refl)); try (specialize (H2 eq_refl)); congruence).
Qed.

(* ================================================================== *)
(** * Further properties of the engines and of the event log *)
(* ================================================================== *)

(** ** More reached states *)

Lemma pickleballMidGame_reachable : reachable pickleballScorer pickleballMidGame.
Proof.
  apply (reachable_scorePoints pickleballScorer midGamePoints pickleballStart).
  - apply (reachable_init pickleballScorer).
  - vm_compute. reflexivity.
Qed.

Lemma pickleballRally_reachable : reachable pickleballScorer pickleballRally.
Proof.
  apply (reachable_scorePoints pickleballScorer rallyPoints
           (Pickleball.createInitialState "m" PICKLEBALL_STANDARD Team2)).
  - apply (reachable_init pickleballScorer).
  - vm_compute. reflexivity.
Qed.

Lemma tennisLongSet_reachable : reachable tennisScorer tennisLongSet.
Proof.
  apply (reachable_scorePoints tennisScorer (sixGamesAll ++ replicate 4 Team1)
           (Tennis.createInitialState "m" TENNIS_LONG_SET Team1)).
  - apply (reachable_init tennisScorer).
  - vm_compute. reflexivity.
Qed.

Lemma tennisTiebreakFive_reachable : reachable tennisScorer tennisTiebreakFive.
Proof.
  apply (reachable_scorePoints tennisScorer
           [Team1; Team2; Team2; Team1; Team1] tennisTiebreakStart).
  - apply tennisTiebreakStart_reachable.
  - vm_compute. reflexivity.
Qed.

(** ** Every step of a match *)

(** X1. The policy and the fixture of a match never change: the state that
    [scorePoint] returns has the [config] and the [fixtureId] of the state
    it was given, in both engines. *)
Theorem scorePoint_keeps_policy :
  (forall s t s',
      Tennis.scorePoint s t = Ok s' ->
      config s' = config s /\ fixtureId s' = fixtureId s)
  /\ (forall s t s',
      Pickleball.scorePoint s t = Ok s' ->
      config s' = config s /\ fixtureId s' = fixtureId s).
Proof. split; [exact tennis_step_policy | exact pickleball_step_policy]. Qed.

Lemma scorePoint_keeps_policy_witness :
  (config tennisMatchWon = config tennisMatchPoint
   /\ fixtureId tennisMatchWon = fixtureId tennisMatchPoint)
  /\ (config pickleballSideOut = config pickleballMidGame
      /\ fixtureId pickleballSideOut = fixtureId pickleballMidGame).
Proof.
  split.
  - apply (proj1 scorePoint_keeps_policy tennisMatchPoint Team1 tennisMatchWon).
    reflexivity.
  - apply (proj2 scorePoint_keeps_policy pickleballMidGame Team2 pickleballSideOut).
    reflexivity.
Defined.

(** X2. A point always changes an ongoing match: the state that [scorePoint]
    returns equals the state it was given exactly when that state is
    complete, in both engines. *)
Theorem scorePoint_same_iff_complete :
  (forall s t s',
      Tennis.scorePoint s t = Ok s' -> (s' = s <-> isComplete s = true))
  /\ (forall s t s',
      Pickleball.scorePoint s t = Ok s' -> (s' = s <-> isComplete s = true)).
Proof.
  split; intros s t s' H; split.
  - intros Heq. destruct (isComplete s) eqn:Hc; [done|].
    exfalso. by apply (tennis_scorePoint_changes s t s' Hc H).
  - intros Hc. unfold Tennis.scorePoint in H. rewrite Hc in H. by simplify_eq.
  - intros Heq. destruct (isComplete s) eqn:Hc; [done|].
    exfalso. by apply (pickleball_scorePoint_changes s t s' Hc H).
  - intros Hc. unfold Pickleball.scorePoint in H. rewrite Hc in H. by simplify_eq.
Qed.

Lemma scorePoint_same_iff_complete_witness :
  (tennisAfterTwo = tennisAfterOne <-> isComplete tennisAfterOne = true)
  /\ (pickleballMatchWon = pickleballMatchWon
      <-> isComplete pickleballMatchWon = true).
Proof.
  split.
  - apply (proj1 scorePoint_same_iff_complete tennisAfterOne Team1 tennisAfterTwo).
    reflexivity.
  - apply (proj2 scorePoint_same_iff_complete
             pickleballMatchWon Team2 pickleballMatchWon).
    reflexivity.
Defined.

(** X3. The set list is append-only: a point leaves the current set index
    as it is or moves it on by one, never shortens the list of sets, and
    leaves every set before the current one as it was; in both engines. *)
Theorem set_history_append_only :
  (forall s t s',
      Tennis.scorePoint s t = Ok s' ->
      (currentSetIndex s <= currentSetIndex s' <= currentSetIndex s + 1)%nat
      /\ (length (sets s) <= length (sets s'))%nat
      /\ forall i, (i < currentSetIndex s)%nat -> sets s' !! i = sets s !! i)
  /\ (forall s t s',
      Pickleball.scorePoint s t = Ok s' ->
      (currentSetIndex s <= currentSetIndex s' <= currentSetIndex s + 1)%nat
      /\ (length (sets s) <= length (sets s'))%nat
      /\ forall i, (i < currentSetIndex s)%nat -> sets s' !! i = sets s !! i).
Proof. split; [exact tennis_step_history | exact pickleball_step_history]. Qed.

Lemma set_history_append_only_witness :
  (currentSetIndex tennisMatchPoint <= currentSetIndex tennisMatchWon
   <= currentSetIndex tennisMatchPoint + 1)%nat
  /\ (length (sets tennisMatchPoint) <= length (sets tennisMatchWon))%nat
  /\ sets tennisMatchWon !! 0%nat = sets tennisMatchPoint !! 0%nat.
Proof.
  destruct (proj1 set_history_append_only
              tennisMatchPoint Team1 tennisMatchWon eq_refl) as (Hi & Hl & Hs).
  split; [exact Hi|]. split; [exact Hl|]. apply Hs. simpl. lia.
Defined.

(** ** A game of tennis *)

(** X4. A game is only ever won by the side that scored the point, from
    ['40'] or from ['AD'], and the labels are then back at 0-0. *)
Theorem game_won_by_scorer game t adv newGame w :
  Tennis.scoreRegularPoint game t adv = (newGame, Some w) ->
  w = t
  /\ newGame = Tennis.createInitialGame
  /\ (Tennis.pointsOf t game = P40 \/ Tennis.pointsOf t game = AD).
Proof.
  unfold Tennis.scoreRegularPoint. destruct game as [p1 p2].
  destruct t, p1, p2, adv; simpl; intros H; simplify_eq; auto.
Qed.

Lemma game_won_by_scorer_witness :
  Tennis.scoreRegularPoint {| team1Points := P30; team2Points := P40 |} Team2 true
  = (Tennis.createInitialGame, Some Team2)
  /\ Tennis.pointsOf Team2 {| team1Points := P30; team2Points := P40 |} = P40.
Proof.
  split; [reflexivity|].
  destruct (game_won_by_scorer {| team1Points := P30; team2Points := P40 |}
              Team2 true Tennis.createInitialGame Team2 eq_refl)
    as (_ & _ & [H|H]); [exact H | discriminate H].
Defined.

(** X5. From 0-0 no game is won in three points or fewer, whoever scores
    them, and four points in a row for one side win it, with or without
    advantage scoring. *)
Theorem game_takes_four_points adv :
  (forall pts, (length pts <= 3)%nat ->
     snd (playPoints Tennis.createInitialGame adv pts) = None)
  /\ (forall t, playPoints Tennis.createInitialGame adv [t; t; t; t]
               = (Tennis.createInitialGame, Some t)).
Proof.
  split.
  - intros pts Hlen.
    destruct pts as [|t1 [|t2 [|t3 [|t4 pts]]]]; simpl in Hlen; try lia.
    all: destruct adv; try destruct t1; try destruct t2; try destruct t3;
      reflexivity.
  - intros t. destruct adv, t; reflexivity.
Qed.

Lemma game_takes_four_points_witness :
  snd (playPoints Tennis.createInitialGame true [Team1; Team2; Team1]) = None.
Proof.
  apply (proj1 (game_takes_four_points true) [Team1; Team2; Team1]).
  simpl. lia.
Defined.

(** X6. Under advantage scoring a game that stands at deuce is only won by
    two points in a row for the winner: whatever points follow deuce, if
    they win the game for [w] then [w; w] occurs among them. One point for
    a side and one for the other lead back to deuce. Without advantage
    scoring the next point wins the game. *)
Theorem deuce_won_by_two_in_a_row :
  (forall pts g w,
      playPoints deuce true pts = (g, Some w) ->
      exists pre post, pts = pre ++ [w; w] ++ post)
  /\ (forall t, playPoints deuce true [t; otherTeam t] = (deuce, None))
  /\ (forall t, playPoints deuce false [t] = (Tennis.createInitialGame, Some t)).
Proof.
  split; [|split].
  - intros pts g w H. by apply (proj1 (deuce_runs pts g w)).
  - by intros [].
  - by intros [].
Qed.

Lemma deuce_won_by_two_in_a_row_witness :
  playPoints deuce true [Team1; Team2; Team2; Team2]
  = (Tennis.createInitialGame, Some Team2)
  /\ exists pre post,
       [Team1; Team2; Team2; Team2] = pre ++ [Team2; Team2] ++ post.
Proof.
  split; [reflexivity|].
  apply (proj1 deuce_won_by_two_in_a_row
           [Team1; Team2; Team2; Team2] Tennis.createInitialGame Team2).
  reflexivity.
Defined.

(** X7. [checkSetWon] names a side exactly when the set is not in a tiebreak
    and the side has [gamesPerSet] games at least with a lead of two at
    least: its two branches for one game more than [gamesPerSet] against one
    game fewer never decide anything. *)
Theorem checkSetWon_lead set cfg t :
  Tennis.checkSetWon set cfg = Some t
  <-> isTiebreak set = false
      /\ gamesPerSet cfg <= gamesOf t set
      /\ 2 <= gamesOf t set - gamesOf (otherTeam t) set.
Proof. apply checkSetWon_iff. Qed.

(** X8. In every state the tennis engine reaches, ['AD'] stands only
    opposite ['40'], and it never appears at all when advantage scoring is
    off. *)
Theorem labels_valid s :
  reachable tennisScorer s ->
  validGame (currentGame s)
  /\ (advantageScoring (config s) = false ->
      team1Points (currentGame s) <> AD /\ team2Points (currentGame s) <> AD).
Proof. apply tennis_reachable_labels. Qed.

Lemma labels_valid_witness :
  validGame (currentGame tennisMatchPoint)
  /\ (advantageScoring (config tennisMatchPoint) = false ->
      team1Points (currentGame tennisMatchPoint) <> AD
      /\ team2Points (currentGame tennisMatchPoint) <> AD).
Proof. apply (labels_valid tennisMatchPoint), tennisMatchPoint_reachable. Defined.

(** X16. Within a game the serve stays: a point of a regular game that does
    not decide the game leaves the serving side, the sets and the match as
    they are, and only moves the labels of the game. *)
Theorem server_kept_within_game s t s' cs :
  Tennis.scorePoint s t = Ok s' ->
  isComplete s = false ->
  sets s !! currentSetIndex s = Some cs -> isTiebreak cs = false ->
  gameCompletes s t = false ->
  servingTeam s' = servingTeam s
  /\ sets s' = sets s
  /\ currentSetIndex s' = currentSetIndex s
  /\ isComplete s' = false
  /\ currentGame s'
     = fst (Tennis.scoreRegularPoint (currentGame s) t
              (advantageScoring (config s))).
Proof. apply tennis_regular_point. Qed.

Lemma server_kept_within_game_witness :
  servingTeam tennisAfterTwo = servingTeam tennisAfterOne
  /\ sets tennisAfterTwo = sets tennisAfterOne
  /\ currentSetIndex tennisAfterTwo = currentSetIndex tennisAfterOne
  /\ isComplete tennisAfterTwo = false
  /\ currentGame tennisAfterTwo
     = fst (Tennis.scoreRegularPoint (currentGame tennisAfterOne) Team1
              (advantageScoring (config tennisAfterOne))).
Proof.
  apply (server_kept_within_game tennisAfterOne Team1 tennisAfterTwo
           (Tennis.createInitialSet 1)); reflexivity.
Defined.

(** ** Sets of tennis *)

(** X9. No set of a reached state has a negative game count, and under a
    policy whose [tiebreakAt] is 0 or less no set is ever in a tiebreak. *)
Theorem tiebreak_disabled s :
  reachable tennisScorer s ->
  Forall (fun st => 0 <= team1Games st /\ 0 <= team2Games st) (sets s)
  /\ (tiebreakAt (config s) <= 0 ->
      Forall (fun st => isTiebreak st = false) (sets s)).
Proof. apply tennis_reachable_games. Qed.

Lemma tiebreak_disabled_witness :
  Forall (fun st => 0 <= team1Games st /\ 0 <= team2Games st)
         (sets tennisLongSet)
  /\ (tiebreakAt (config tennisLongSet) <= 0 ->
      Forall (fun st => isTiebreak st = false) (sets tennisLongSet)).
Proof. apply (tiebreak_disabled tennisLongSet), tennisLongSet_reachable. Defined.

(** X10. The scores a set can stand at. Under a policy whose tiebreak comes
    at [gamesPerSet] games all or one game earlier ([tiebreakAt] at least
    1), every set of a reached state has one of the scores of [setScore];
    in particular no side ever has more than [tiebreakAt + 1] games in a
    set. *)
Theorem set_scores s :
  reachable tennisScorer s ->
  standardTiebreak (config s) ->
  Forall (setScore (config s)) (sets s)
  /\ Forall (fun st => 0 <= team1Games st <= tiebreakAt (config s) + 1
                       /\ 0 <= team2Games st <= tiebreakAt (config s) + 1)
            (sets s).
Proof.
  intros Hr Hcfg.
  pose proof (tennis_reachable_setScore s Hr Hcfg) as Hsc.
  split; [exact Hsc|].
  destruct (tennis_reachable_games s Hr) as [Hpos _].
  apply Forall_lookup_2. intros i st Hst.
  pose proof (Forall_lookup_1 _ _ _ _ Hsc Hst) as H.
  pose proof (Forall_lookup_1 _ _ _ _ Hpos Hst) as [Hp1 Hp2].
  unfold setScore in H. destruct Hcfg as (Hc1 & Hc2 & Hc3).
  destruct (winner st) as [[]|], (isTiebreak st); simpl in H; lia.
Qed.

Lemma set_scores_witness :
  standardTiebreak (config tennisMatchWon)
  /\ Forall (setScore (config tennisMatchWon)) (sets tennisMatchWon)
  /\ Forall (fun st => 0 <= team1Games st <= 7 /\ 0 <= team2Games st <= 7)
            (sets tennisMatchWon).
Proof.
  assert (Hcfg : standardTiebreak (config tennisMatchWon))
    by (unfold standardTiebreak; simpl; lia).
  split; [exact Hcfg|].
  apply (set_scores tennisMatchWon tennisMatchWon_reachable Hcfg).
Defined.

(** X11. The tiebreak tally: in every reached state a set that is or was
    in a tiebreak has a tally without negative count; if the set has a
    winner, the winner's count is at the tiebreak target or beyond and two
    points clear; if it has none, neither side's count is. *)
Theorem tiebreak_tallies s :
  reachable tennisScorer s -> Forall (tiebreakTally (config s)) (sets s).
Proof. apply tennis_reachable_tiebreakTally. Qed.

Lemma tiebreak_tallies_witness :
  Forall (tiebreakTally (config tennisTiebreakFive)) (sets tennisTiebreakFive).
Proof.
  apply (tiebreak_tallies tennisTiebreakFive), tennisTiebreakFive_reachable.
Defined.

(** X12. While the current set is in its tiebreak the game labels are not
    used: they stay at 0-0 in every reached state. *)
Theorem tiebreak_leaves_game s cs :
  reachable tennisScorer s ->
  sets s !! currentSetIndex s = Some cs -> isTiebreak cs = true ->
  currentGame s = Tennis.createInitialGame.
Proof. intros Hr. by apply tennis_reachable_tiebreak_game. Qed.

Lemma tiebreak_leaves_game_witness :
  currentGame tennisTiebreakFive = Tennis.createInitialGame.
Proof.
  apply (tiebreak_leaves_game tennisTiebreakFive
           {| setNumber := 1; team1Games := 6; team2Games := 6;
              isTiebreak := true;
              tiebreakScore := Some {| team1 := 3; team2 := 2 |};
              winner := None |} tennisTiebreakFive_reachable);
    reflexivity.
Defined.

(** ** The sets of a match *)

(** X13. In every state either engine reaches, the current set is the last
    of the list; the sets are numbered 1, 2, ... in order; every set before
    the current one has a winner; and the current set has a winner exactly
    when the match is complete. *)
Theorem sets_in_order :
  (forall s, reachable tennisScorer s ->
      length (sets s) = S (currentSetIndex s) /\ setsInOrder s)
  /\ (forall s, reachable pickleballScorer s ->
      length (sets s) = S (currentSetIndex s) /\ setsInOrder s).
Proof.
  split; intros s Hr; split.
  - apply (tennis_reachable_wellFormed s Hr).
  - by apply tennis_reachable_setsInOrder.
  - apply (pickleball_reachable_wellFormed s Hr).
  - by apply pickleball_reachable_setsInOrder.
Qed.

Lemma sets_in_order_witness :
  (length (sets tennisMatchWon) = S (currentSetIndex tennisMatchWon)
   /\ setsInOrder tennisMatchWon)
  /\ (length (sets pickleballMidGame) = S (currentSetIndex pickleballMidGame)
      /\ setsInOrder pickleballMidGame).
Proof.
  split.
  - apply (proj1 sets_in_order tennisMatchWon), tennisMatchWon_reachable.
  - apply (proj2 sets_in_order pickleballMidGame), pickleballMidGame_reachable.
Defined.

(** X14. A match is won with exactly [setsToWin] sets. Under a policy with
    [setsToWin] at least 1, in every reached state of either engine: while
    the match goes on both sides have won fewer than [setsToWin] sets; once
    it is complete the recorded winner has won exactly [setsToWin] sets and
    the other side fewer. *)
Theorem match_won_with_setsToWin :
  (forall s, reachable tennisScorer s ->
      1 <= setsToWin (config s) -> setsTally s)
  /\ (forall s, reachable pickleballScorer s ->
      1 <= setsToWin (config s) -> setsTally s).
Proof.
  split; [exact tennis_reachable_setsTally | exact pickleball_reachable_setsTally].
Qed.

Lemma match_won_with_setsToWin_witness :
  setsTally tennisMatchWon /\ setsTally pickleballMatchWon.
Proof.
  split.
  - apply (proj1 match_won_with_setsToWin tennisMatchWon tennisMatchWon_reachable).
    simpl. lia.
  - apply (proj2 match_won_with_setsToWin
             pickleballMatchWon pickleballMatchWon_reachable).
    simpl. lia.
Defined.

(** X15. The sets won by the two sides add up to the number of finished
    sets: the current set index, plus one once the match is complete; in
    every reached state of either engine. *)
Theorem sets_won_add_up :
  (forall s, reachable tennisScorer s ->
      setsWonBy Team1 (sets s) + setsWonBy Team2 (sets s)
      = Z.of_nat (currentSetIndex s) + oneIf (isComplete s))
  /\ (forall s, reachable pickleballScorer s ->
      setsWonBy Team1 (sets s) + setsWonBy Team2 (sets s)
      = Z.of_nat (currentSetIndex s) + oneIf (isComplete s)).
Proof.
  split; intros s Hr; apply sets_won_sum.
  - by apply tennis_reachable_wellFormed.
  - by apply tennis_reachable_setsInOrder.
  - by apply pickleball_reachable_wellFormed.
  - by apply pickleball_reachable_setsInOrder.
Qed.

Lemma sets_won_add_up_witness :
  setsWonBy Team1 (sets tennisMatchWon) + setsWonBy Team2 (sets tennisMatchWon)
  = 2
  /\ setsWonBy Team1 (sets pickleballMidGame)
     + setsWonBy Team2 (sets pickleballMidGame) = 0.
Proof.
  split.
  - apply (proj1 sets_won_add_up tennisMatchWon), tennisMatchWon_reachable.
  - apply (proj2 sets_won_add_up pickleballMidGame), pickleballMidGame_reachable.
Defined.

(** ** Pickleball *)

(** X17. The pickleball engine never fails on a state it reaches: for
    either side [scorePoint] returns a state (the read of the current set
    always finds one). *)
Theorem pickleball_never_fails s :
  reachable pickleballScorer s ->
  forall t, exists s', Pickleball.scorePoint s t = Ok s'.
Proof.
  intros Hr t. apply pickleball_scorePoint_returns.
  by apply pickleball_reachable_wellFormed.
Qed.

Lemma pickleball_never_fails_witness :
  (exists s', Pickleball.scorePoint pickleballMidGame Team1 = Ok s')
  /\ (exists s', Pickleball.scorePoint pickleballMidGame Team2 = Ok s').
Proof.
  split;
    apply (pickleball_never_fails pickleballMidGame pickleballMidGame_reachable).
Defined.

(** X18. Under rally scoring every rally of an ongoing match goes to the
    side that won it: either the game goes on with that side one point up,
    the other tally unchanged and that side serving next, or the point wins
    the game and the current set gets that side as its winner. The serve is
    never passed without a point. *)
Theorem rally_point s t s' cs :
  Pickleball.scorePoint s t = Ok s' ->
  isComplete s = false ->
  rallyScoring (config s) = true ->
  sets s !! currentSetIndex s = Some cs ->
  (sets s' = sets s
   /\ Pickleball.pointsOf t (currentGame s')
      = Pickleball.pointsOf t (currentGame s) + 1
   /\ Pickleball.pointsOf (otherTeam t) (currentGame s')
      = Pickleball.pointsOf (otherTeam t) (currentGame s)
   /\ servingTeam s' = t)
  \/ (winner <$> sets s' !! currentSetIndex s = Some (Some t)).
Proof. apply pickleball_rally_point. Qed.

Lemma rally_point_witness :
  Pickleball.scorePoint pickleballRally Team1 = Ok pickleballRallyNext
  /\ ((sets pickleballRallyNext = sets pickleballRally
       /\ Pickleball.pointsOf Team1 (currentGame pickleballRallyNext)
          = Pickleball.pointsOf Team1 (currentGame pickleballRally) + 1
       /\ Pickleball.pointsOf (otherTeam Team1) (currentGame pickleballRallyNext)
          = Pickleball.pointsOf (otherTeam Team1) (currentGame pickleballRally)
       /\ servingTeam pickleballRallyNext = Team1)
      \/ (winner <$> sets pickleballRallyNext !! currentSetIndex pickleballRally
          = Some (Some Team1))).
Proof.
  split; [reflexivity|].
  apply (rally_point pickleballRally Team1 pickleballRallyNext
           (Pickleball.createInitialSet 1)); reflexivity.
Defined.

(** X19. Under rally scoring the second server slot is never used: the
    server number is 1 in every reached state. *)
Theorem rally_first_server_only s :
  reachable pickleballScorer s ->
  rallyScoring (config s) = true ->
  serverNumber (currentGame s) = Server1.
Proof. apply pickleball_reachable_rally_server. Qed.

Lemma rally_first_server_only_witness :
  serverNumber (currentGame pickleballRally) = Server1.
Proof.
  apply (rally_first_server_only pickleballRally pickleballRally_reachable).
  reflexivity.
Defined.



(** X21. An ongoing game never shows a tally that has already won it: in
    every reached state of a match that is not complete, neither side has
    the points to win with the lead that the policy asks for. *)
Theorem no_winning_tally_in_play s :
  reachable pickleballScorer s ->
  isComplete s = false ->
  forall t, ~ winningTally (config s) (currentGame s) t.
Proof. apply pickleball_reachable_tally. Qed.

Lemma no_winning_tally_in_play_witness :
  ~ winningTally (config pickleballRally) (currentGame pickleballRally) Team1
  /\ ~ winningTally (config pickleballRally) (currentGame pickleballRally) Team2.
Proof.
  split;
    apply (no_winning_tally_in_play pickleballRally pickleballRally_reachable);
    reflexivity.
Defined.

(** X22. A pickleball set is one game: in every reached state no set is in
    a tiebreak or has a tiebreak tally, a set without winner stands at 0-0
    games, and a won set at one game to none for its winner. *)
Theorem pickleball_sets_one_game s :
  reachable pickleballScorer s -> Forall oneGameSet (sets s).
Proof. apply pickleball_reachable_oneGameSet. Qed.

Lemma pickleball_sets_one_game_witness :
  Forall oneGameSet (sets pickleballMatchWon).
Proof.
  apply (pickleball_sets_one_game pickleballMatchWon),
    pickleballMatchWon_reachable.
Defined.

(** ** The event log *)






(** ** The end of a game and of a match *)

Lemma pickleballGameBall_reachable : reachable pickleballScorer pickleballGameBall.
Proof.
  apply (reachable_scorePoints pickleballScorer (replicate 10 Team1) pickleballStart).
  - apply (reachable_init pickleballScorer).
  - vm_compute. reflexivity.
Qed.

(** X25. A game that does not end the match starts the next one with the
    loser serving: whenever a point moves a reached pickleball match on to
    another set, the set index rises by one, the match is not complete, the
    set just played has the scoring side as its winner, the new current set
    is a fresh one with the next number, the tallies are back at 0-0 with
    server slot 1, and the side that lost the game serves. *)
Theorem pickleball_next_game s t s' :
  reachable pickleballScorer s ->
  Pickleball.scorePoint s t = Ok s' ->
  currentSetIndex s' <> currentSetIndex s ->
  currentSetIndex s' = S (currentSetIndex s)
  /\ isComplete s' = false
  /\ currentGame s' = Pickleball.createInitialGame
  /\ servingTeam s' = otherTeam t
  /\ winner <$> sets s' !! currentSetIndex s = Some (Some t)
  /\ sets s' !! currentSetIndex s'
     = Some (Pickleball.createInitialSet (Z.of_nat (currentSetIndex s') + 1)).
Proof.
  intros Hr H Hi.
  pose proof (pickleball_reachable_wellFormed s Hr) as [Hlen _].
  destruct (isComplete s) eqn:Hc.
  { unfold Pickleball.scorePoint in H. rewrite Hc in H. by simplify_eq. }
  unfold Pickleball.scorePoint in H. rewrite Hc in H.
  repeat (case_match; simplify_eq/=); try done.
  all: unfold replaceSet; repeat split; try lia; try done.
  all: try (rewrite lookup_app_l by (rewrite length_insert; lia);
            by rewrite list_lookup_insert_eq by lia).
  all: rewrite lookup_app_r by (rewrite length_insert; lia);
    rewrite length_insert, Hlen;
    replace (currentSetIndex s + 1 - S (currentSetIndex s))%nat with 0%nat by lia;
    simpl; do 2 f_equal; lia.
Qed.

Lemma pickleball_next_game_witness :
  Pickleball.scorePoint pickleballGameBall Team1 = Ok pickleballSecondGame
  /\ servingTeam pickleballSecondGame = Team2
  /\ currentGame pickleballSecondGame = Pickleball.createInitialGame.
Proof.
  split; [reflexivity|].
  destruct (pickleball_next_game pickleballGameBall Team1 pickleballSecondGame
              pickleballGameBall_reachable eq_refl)
    as (_ & _ & Hg & Hs & _); [simpl; lia|].
  split; [exact Hs | exact Hg].
Defined.

Lemma tennis_reachable_last_set s :
  reachable tennisScorer s ->
  isComplete s = true ->
  winner <$> sets s !! currentSetIndex s = Some (matchWinner s).
Proof.
  revert s. apply (reachable_invariant tennisScorer
    (fun s => isComplete s = true ->
              winner <$> sets s !! currentSetIndex s = Some (matchWinner s))).
  - done.
  - intros s t s' Hin H Hc'. simpl in H.
    destruct (isComplete s) eqn:Hc.
    { unfold Tennis.scorePoint in H. rewrite Hc in H. simplify_eq. by apply Hin. }
    unfold Tennis.scorePoint in H. rewrite Hc in H.
    destruct (sets s !! currentSetIndex s) as [cs|] eqn:Hcs; [|done].
    pose proof (lookup_lt_Some _ _ _ Hcs) as Hlt.
    destruct (isTiebreak cs) eqn:Htb.
    + unfold mbind, result_bind in H.
      destruct (Tennis.scoreTiebreakPoint cs t (config s)) as [[newSet w]|] eqn:Hr'; [|done].
      apply scoreTiebreakPoint_fields in Hr' as (_ & _ & sc & _ & _ & Hw).
      repeat (case_match; simplify_eq/=).
      destruct Hw as (-> & Hwin & _).
      unfold replaceSet. rewrite list_lookup_insert_eq by done. simpl. by rewrite Hwin.
    + repeat (case_match; simplify_eq/=).
      unfold replaceSet. by rewrite list_lookup_insert_eq by done.
Qed.

Lemma pickleball_reachable_last_set s :
  reachable pickleballScorer s ->
  isComplete s = true ->
  winner <$> sets s !! currentSetIndex s = Some (matchWinner s).
Proof.
  revert s. apply (reachable_invariant pickleballScorer
    (fun s => isComplete s = true ->
              winner <$> sets s !! currentSetIndex s = Some (matchWinner s))).
  - done.
  - intros s t s' Hin H Hc'. simpl in H.
    destruct (isComplete s) eqn:Hc.
    { unfold Pickleball.scorePoint in H. rewrite Hc in H. simplify_eq. by apply Hin. }
    unfold Pickleball.scorePoint in H. rewrite Hc in H.
    repeat (case_match; simplify_eq/=).
    all: match goal with H : sets _ !! currentSetIndex _ = Some _ |- _ =>
           apply lookup_lt_Some in H end.
    all: unfold replaceSet; by rewrite list_lookup_insert_eq by done.
Qed.

(** X26. The match winner won the last set: in every complete state either
    engine reaches, the current set exists and its winner is the recorded
    [matchWinner]. *)
Theorem match_winner_won_last_set :
  (forall s, reachable tennisScorer s ->
      isComplete s = true ->
      winner <$> sets s !! currentSetIndex s = Some (matchWinner s))
  /\ (forall s, reachable pickleballScorer s ->
      isComplete s = true ->
      winner <$> sets s !! currentSetIndex s = Some (matchWinner s)).
Proof.
  split; [exact tennis_reachable_last_set | exact pickleball_reachable_last_set].
Qed.

Lemma match_winner_won_last_set_witness :
  winner <$> sets tennisMatchWon !! currentSetIndex tennisMatchWon
  = Some (matchWinner tennisMatchWon)
  /\ winner <$> sets pickleballMatchWon !! currentSetIndex pickleballMatchWon
     = Some (matchWinner pickleballMatchWon).
Proof.
  split.
  - apply (proj1 match_winner_won_last_set tennisMatchWon tennisMatchWon_reachable).
    reflexivity.
  - apply (proj2 match_winner_won_last_set
             pickleballMatchWon pickleballMatchWon_reachable).
    reflexivity.
Defined.
